(** * AnimatedHeap (sort.py): an array-backed binary heap with an observer

    The development embeds the class [AnimatedHeap] of [sort.py]: the list
    [self.heap], the polarity [self.is_min], the frames drawn on the plot
    placeholder [st_plot] and the warnings sent to the page.  Methods are
    written in a small state-and-error monad: a list access out of range
    raises [IndexError] as in Python, and each [while] loop takes a fuel
    argument bounding the number of times its guard is evaluated.

    Values are Python integers ([Z]).  Indices are natural numbers: the
    indices the class forms are [0], [len(self.heap) - 1] after an append,
    [2 * index + 1], [2 * index + 2], and [(index - 1) // 2], the last one
    only under the guard [index > 0], where the subtraction of [nat] agrees
    with that of Python. *)

From Stdlib Require Import ZArith String.
From stdpp Require Import pretty.
From stdpp Require Import base option list sorting gmultiset.

Local Open Scope nat_scope.

(** ** Program state *)

(** One call of [st_plot.graphviz_chart(draw_heap_tree(heap, highlight_nodes))]:
    the array drawn and the highlighted nodes ([[]] when none is given). *)
Definition frame : Type := list Z * list nat.

Record state : Type := State {
  heap : list Z;            (* self.heap *)
  plot : list frame;        (* frames received by st_plot, oldest first *)
  warnings : list string    (* messages passed to st.warning *)
}.

Definition set_heap (h : list Z) (s : state) : state :=
  State h (plot s) (warnings s).

(** ** Results and the monad *)

Inductive result (A : Type) : Type :=
| Ok (a : A)
| IndexError
| OutOfFuel.
Arguments Ok {A} a.
Arguments IndexError {A}.
Arguments OutOfFuel {A}.

Definition M (A : Type) : Type := state -> result (A * state).

Definition ret {A} (a : A) : M A := fun s => Ok (a, s).

Definition bind {A B} (m : M A) (k : A -> M B) : M B :=
  fun s => match m s with
           | Ok (a, s') => k a s'
           | IndexError => IndexError
           | OutOfFuel => OutOfFuel
           end.

Notation "'let*' x ':=' m 'in' k" := (bind m (fun x => k))
  (at level 10, x name, m at level 100, k at level 200).
Notation "m ';;' k" := (bind m (fun _ => k))
  (at level 100, k at level 200, right associativity).

Definition out_of_fuel {A} : M A := fun _ => OutOfFuel.

(** ** Primitive list operations of Python *)

(** [len(self.heap)] *)
Definition len : M nat := fun s => Ok (length (heap s), s).

(** [self.heap[i]] as an expression *)
Definition get_item (i : nat) : M Z :=
  fun s => match heap s !! i with
           | Some x => Ok (x, s)
           | None => IndexError
           end.

(** [self.heap[i] = v] *)
Definition set_item (i : nat) (v : Z) : M unit :=
  fun s => if i <? length (heap s)
           then Ok (tt, set_heap (<[i:=v]> (heap s)) s)
           else IndexError.

(** [self.heap.append(v)] *)
Definition append (v : Z) : M unit :=
  fun s => Ok (tt, set_heap (heap s ++ [v]) s).

(** [self.heap.pop()] *)
Definition pop : M Z :=
  fun s => match list.last (heap s) with
           | Some x => Ok (x, set_heap (removelast (heap s)) s)
           | None => IndexError
           end.

(** [self.heap = arr[:]] *)
Definition assign_copy (arr : list Z) : M unit :=
  fun s => Ok (tt, set_heap arr s).

(** [st_plot.graphviz_chart(draw_heap_tree(self.heap, highlight_nodes=hl))];
    [time.sleep(1)] has no effect on the state. *)
Definition graphviz_chart (hl : list nat) : M unit :=
  fun s => Ok (tt, State (heap s) (plot s ++ [(heap s, hl)]) (warnings s)).

(** [st.warning(msg)] *)
Definition st_warning (msg : string) : M unit :=
  fun s => Ok (tt, State (heap s) (plot s) (warnings s ++ [msg])).

(** [for i in l: body(i)] *)
Fixpoint for_each (l : list nat) (body : nat -> M unit) : M unit :=
  match l with
  | [] => ret tt
  | i :: l' => body i ;; for_each l' body
  end.

(** [reversed(range(n))] *)
Definition reversed_range (n : nat) : list nat := rev (seq 0 n).

(** ** The class AnimatedHeap *)

(** [__init__]: an empty heap; nothing has been drawn or reported yet. *)
Definition init : state := State [] [] [].

Section AnimatedHeap.

Variable is_min : bool.

Definition _compare (a b : Z) : bool :=
  if is_min then (a <? b)%Z else (a >? b)%Z.

Definition swap_and_visualize (i j : nat) : M unit :=
  let* vj := get_item j in
  let* vi := get_item i in
  set_item i vj ;;
  set_item j vi ;;
  graphviz_chart [i; j].

Fixpoint _heapify_up (fuel index : nat) : M unit :=
  match fuel with
  | O => out_of_fuel
  | S fuel' =>
      if 0 <? index then
        let parent := (index - 1) / 2 in
        let* a := get_item index in
        let* b := get_item parent in
        if _compare a b then
          swap_and_visualize index parent ;;
          _heapify_up fuel' parent
        else ret tt
      else ret tt
  end.

(** Lines 32-39: the candidate [swap_idx] chosen in one pass of the loop of
    [_heapify_down]. *)
Definition select_swap_idx (size index : nat) : M nat :=
  let swap_idx := index in
  let left := 2 * index + 1 in
  let right := 2 * index + 2 in
  let* swap_idx :=
    (if left <? size then
       let* a := get_item left in
       let* b := get_item swap_idx in
       ret (if _compare a b then left else swap_idx)
     else ret swap_idx) in
  if right <? size then
    let* a := get_item right in
    let* b := get_item swap_idx in
    ret (if _compare a b then right else swap_idx)
  else ret swap_idx.

(** The [while True] loop of [_heapify_down]; [size] was read before it. *)
Fixpoint heapify_down_loop (fuel size index : nat) : M unit :=
  match fuel with
  | O => out_of_fuel
  | S fuel' =>
      let* swap_idx := select_swap_idx size index in
      if negb (swap_idx =? index) then
        swap_and_visualize index swap_idx ;;
        heapify_down_loop fuel' size swap_idx
      else ret tt
  end.

Definition _heapify_down (fuel index : nat) : M unit :=
  let* size := len in
  heapify_down_loop fuel size index.

Definition build_heap (fuel : nat) (arr : list Z) : M unit :=
  assign_copy arr ;;
  graphviz_chart [] ;;
  let* n := len in
  for_each (reversed_range (n / 2)) (fun i => _heapify_down fuel i).

Definition insert (fuel : nat) (val : Z) : M unit :=
  append val ;;
  let* n := len in
  _heapify_up fuel (n - 1).

Definition delete_root (fuel : nat) : M (option Z) :=
  let* n := len in
  if n =? 0 then
    st_warning "Heap is empty!" ;;
    ret None
  else
    let* root := get_item 0 in
    let* last := pop in
    let* n' := len in
    (if negb (n' =? 0) then
       set_item 0 last ;;
       _heapify_down fuel 0
     else ret tt) ;;
    ret (Some root).

Definition get_heap : M (list Z) := fun s => Ok (heap s, s).

End AnimatedHeap.

(** ** Specification vocabulary *)

(** The order the polarity puts between a parent and its children. *)
Definition le_pol (is_min : bool) (x y : Z) : Prop :=
  if is_min then (x <= y)%Z else (x >= y)%Z.

(** [c] is a child index of [i] in the implicit tree. *)
Definition child (i c : nat) : Prop := c = 2 * i + 1 ∨ c = 2 * i + 2.

(** Heap order at one node: [i] precedes each of its existing children. *)
Definition local_ok (is_min : bool) (h : list Z) (i : nat) : Prop :=
  ∀ c x y, child i c → h !! i = Some x → h !! c = Some y → le_pol is_min x y.

Definition heap_ordered (is_min : bool) (h : list Z) : Prop :=
  ∀ i, local_ok is_min h i.

(** The list after [heap[i], heap[j] = heap[j], heap[i]], where [a] and [b]
    are the old values at [i] and [j]. *)
Definition exchange (h : list Z) (i j : nat) (a b : Z) : list Z :=
  <[j:=a]> (<[i:=b]> h).

(** Big-step description of one run of the loop of [_heapify_down]: start
    index, list before, list after, frames drawn. *)
Inductive sift_down (is_min : bool) : nat → list Z → list Z → list frame → Prop :=
| sift_down_stop i h :
    local_ok is_min h i → sift_down is_min i h h []
| sift_down_swap i m x y h h' evs :
    child i m → h !! i = Some x → h !! m = Some y →
    _compare is_min y x = true →
    (∀ c z, child i c → h !! c = Some z → le_pol is_min y z) →
    sift_down is_min m (exchange h i m x y) h' evs →
    sift_down is_min i h h' ((exchange h i m x y, [i; m]) :: evs).

(** The same for the loop of [_heapify_up]. *)
Inductive sift_up (is_min : bool) : nat → list Z → list Z → list frame → Prop :=
| sift_up_root h : sift_up is_min 0 h h []
| sift_up_stop i x y h :
    0 < i → h !! i = Some x → h !! ((i - 1) / 2) = Some y →
    _compare is_min x y = false → sift_up is_min i h h []
| sift_up_swap i x y h h' evs :
    0 < i → h !! i = Some x → h !! ((i - 1) / 2) = Some y →
    _compare is_min x y = true →
    sift_up is_min ((i - 1) / 2) (exchange h i ((i - 1) / 2) x y) h' evs →
    sift_up is_min i h h' ((exchange h i ((i - 1) / 2) x y, [i; (i - 1) / 2]) :: evs).

(** What [select_swap_idx] returns at [i] on list [h]: either [i] itself,
    and then [i] is in order with its children, or the child that precedes
    both [i] and the other child. *)
Definition selects (is_min : bool) (h : list Z) (i m : nat) : Prop :=
  (m = i ∧ local_ok is_min h i) ∨
  (∃ x y, child i m ∧ h !! i = Some x ∧ h !! m = Some y ∧
          _compare is_min y x = true ∧
          ∀ c z, child i c → h !! c = Some z → le_pol is_min y z).

(** Every node from [i0] on is in order. *)
Definition ordered_from (is_min : bool) (i0 : nat) (h : list Z) : Prop :=
  ∀ j, i0 ≤ j → local_ok is_min h j.

(** Invariant of the loop of [_heapify_down] started at or below [i0], at
    index [k]: only [k] may be out of order with its children, and the
    parent of [k] is in order with the children of [k]. *)
Definition down_inv (is_min : bool) (i0 k : nat) (h : list Z) : Prop :=
  (∀ j, i0 ≤ j → j ≠ k → local_ok is_min h j) ∧
  (∀ p c u v, i0 ≤ p → child p k → child k c →
     h !! p = Some u → h !! c = Some v → le_pol is_min u v).

(** Invariant of the loop of [_heapify_up] at index [k]: every parent-child
    pair is in order except possibly the one whose child is [k], and the
    parent of [k] is in order with the children of [k]. *)
Definition up_inv (is_min : bool) (k : nat) (h : list Z) : Prop :=
  (∀ j c u v, child j c → c ≠ k →
     h !! j = Some u → h !! c = Some v → le_pol is_min u v) ∧
  (∀ p c u v, child p k → child k c →
     h !! p = Some u → h !! c = Some v → le_pol is_min u v).

(** Big-step description of [for i in l: self._heapify_down(i, st_plot)]. *)
Inductive sift_all (is_min : bool) : list nat → list Z → list Z → list frame → Prop :=
| sift_all_nil h : sift_all is_min [] h h []
| sift_all_cons i l h h1 h' e1 e2 :
    sift_down is_min i h h1 e1 →
    sift_all is_min l h1 h' e2 →
    sift_all is_min (i :: l) h h' (e1 ++ e2).

(** Once a computation ends without running out of fuel, any larger fuel
    gives the same result. *)
Definition fuel_stable {A} (f : nat → M A) : Prop :=
  ∀ fuel fuel' s, fuel ≤ fuel' → f fuel s ≠ OutOfFuel → f fuel' s = f fuel s.

(** The three actions of the page, each driving one method. *)
Inductive op : Type :=
| Build (arr : list Z)
| Insert (val : Z)
| DeleteRoot.

(** One action; [build_heap] and [insert] return nothing. *)
Definition run_op (is_min : bool) (fuel : nat) (o : op) : M (option Z) :=
  match o with
  | Build arr => build_heap is_min fuel arr ;; ret None
  | Insert val => insert is_min fuel val ;; ret None
  | DeleteRoot => delete_root is_min fuel
  end.

(** A sequence of actions on one heap object; after each action the page
    reads [get_heap()], recorded here next to what the action returned. *)
Fixpoint run_ops (is_min : bool) (fuel : nat) (ops : list op)
  : M (list (option Z * list Z)) :=
  match ops with
  | [] => ret []
  | o :: ops' =>
      let* r := run_op is_min fuel o in
      let* h := get_heap in
      let* rest := run_ops is_min fuel ops' in
      ret ((r, h) :: rest)
  end.

(** [n] successive calls of [delete_root], with what each returned. *)
Fixpoint delete_roots (is_min : bool) (fuel n : nat) : M (list (option Z)) :=
  match n with
  | O => ret []
  | S n' =>
      let* r := delete_root is_min fuel in
      let* rs := delete_roots is_min fuel n' in
      ret (r :: rs)
  end.

(** A bound on how much an action can add to the length of the heap. *)
Definition op_size (o : op) : nat :=
  match o with
  | Build arr => length arr
  | Insert _ => 1
  | DeleteRoot => 0
  end.

Definition ops_size (ops : list op) : nat := sum_list (op_size <$> ops).

(** The multiset an action leaves, from the multiset before it and the
    value the action returned. *)
Definition multiset_after (m : gmultiset Z) (o : op) (r : option Z) : gmultiset Z :=
  match o, r with
  | Build arr, _ => list_to_set_disj arr
  | Insert val, _ => m ⊎ {[+ val +]}
  | DeleteRoot, Some x => m ∖ {[+ x +]}
  | DeleteRoot, None => m
  end.

(** What an action may return on multiset [m]: [delete_root] returns a
    value held in the heap, or nothing when the heap is empty. *)
Definition returned_ok (m : gmultiset Z) (o : op) (r : option Z) : Prop :=
  match o, r with
  | DeleteRoot, Some x => x ∈ m
  | DeleteRoot, None => m = ∅
  | _, _ => r = None
  end.

(** The multiset determined by a sequence of actions and their returns. *)
Fixpoint expected (m : gmultiset Z) (ops : list op) (rets : list (option Z))
  : gmultiset Z :=
  match ops, rets with
  | o :: ops', r :: rets' => expected (multiset_after m o r) ops' rets'
  | _, _ => m
  end.

Fixpoint returns_valid (m : gmultiset Z) (ops : list op) (rets : list (option Z))
  : Prop :=
  match ops, rets with
  | [], [] => True
  | o :: ops', r :: rets' =>
      returned_ok m o r ∧ returns_valid (multiset_after m o r) ops' rets'
  | _, _ => False
  end.

(** A checker for heap order, for concrete arrays. *)
Definition pair_okb (is_min : bool) (h : list Z) (i c : nat) : bool :=
  match h !! i, h !! c with
  | Some x, Some y => negb (_compare is_min y x)
  | _, _ => true
  end.

Definition heap_orderedb (is_min : bool) (h : list Z) : bool :=
  forallb (λ i, pair_okb is_min h i (2 * i + 1) && pair_okb is_min h i (2 * i + 2))
          (seq 0 (length h)).

(** The frames of an animation: starting from list [h], each frame shows
    the list after exchanging the two highlighted positions [i] and [j] of
    the list before it, where [R i j] holds; the last list is [h']. *)
Inductive frames_follow (R : nat → nat → Prop)
  : list Z → list frame → list Z → Prop :=
| frames_follow_nil h : frames_follow R h [] h
| frames_follow_cons h i j a b evs h' :
    h !! i = Some a → h !! j = Some b → R i j →
    frames_follow R (exchange h i j a b) evs h' →
    frames_follow R h ((exchange h i j a b, [i; j]) :: evs) h'.


(** ** The drawing: [draw_heap_tree] *)

(** A statement in the body of a graphviz [Digraph], in the order of the
    calls that add them: [dot.attr], [dot.node(name, label, ...)] and
    [dot.edge(tail_name, head_name, ...)], each with its keyword arguments. *)
Inductive stmt : Type :=
| attr_stmt (kw : list (string * string))
| node_stmt (name label : string) (attrs : list (string * string))
| edge_stmt (tail_name head_name : string) (attrs : list (string * string)).

(** The keyword arguments of [dot.node] in [draw_heap_tree]. *)
Definition node_attrs (node_color font_color : string) : list (string * string) :=
  [("shape", "circle"); ("style", "filled"); ("color", node_color);
   ("fontcolor", font_color); ("fixedsize", "true"); ("width", "0.8");
   ("height", "0.8"); ("fontsize", "14")]%string.

(** One pass of the loop [for i, val in enumerate(heap)]; [str] of an
    integer is its decimal writing, [pretty]. *)
Definition draw_item (heap : list Z) (highlight_nodes : list nat) (i : nat) (val : Z)
  : list stmt :=
  let '(node_color, font_color) :=
    if bool_decide (i ∈ highlight_nodes)
    then ("#FF4B4B", "white")%string
    else ("white", "black")%string in
  let left := 2 * i + 1 in
  let right := 2 * i + 2 in
  [node_stmt (pretty i) (pretty val) (node_attrs node_color font_color)]
  ++ (if left <? length heap
      then [edge_stmt (pretty i) (pretty left) [("color", "green")%string]]
      else [])
  ++ (if right <? length heap
      then [edge_stmt (pretty i) (pretty right) [("color", "green")%string]]
      else []).

(** [draw_heap_tree(heap, highlight_nodes=None)]; [highlight_nodes or []]
    replaces [None] and the empty list by the empty list. *)
Definition draw_heap_tree (heap : list Z) (highlight_nodes : option (list nat))
  : list stmt :=
  let highlight_nodes :=
    match highlight_nodes with
    | Some (x :: l) => x :: l
    | _ => []
    end in
  attr_stmt [("bgcolor", "black")%string]
  :: concat (imap (draw_item heap highlight_nodes) heap).

(** The nodes of a drawing, in order: name, label, attributes. *)
Definition nodes_of (d : list stmt) : list (string * string * list (string * string)) :=
  omap (λ st, match st with
              | node_stmt name label attrs => Some (name, label, attrs)
              | _ => None
              end) d.

(** The edges of a drawing, in order: tail and head. *)
Definition edges_of (d : list stmt) : list (string * string) :=
  omap (λ st, match st with
              | edge_stmt tail_name head_name _ => Some (tail_name, head_name)
              | _ => None
              end) d.

(** The names of the nodes drawn in the highlight colour. *)
Definition red_nodes (d : list stmt) : list string :=
  (λ nd, nd.1.1) <$>
  filter (λ nd, ("color", "#FF4B4B")%string ∈ nd.2) (nodes_of d).

(** The edges leaving node [i] in a heap of [n] values. *)
Definition item_edges (n i : nat) : list (string * string) :=
  (if 2 * i + 1 <? n then [(pretty i, pretty (2 * i + 1))] else [])
  ++ (if 2 * i + 2 <? n then [(pretty i, pretty (2 * i + 2))] else []).



(** ** [swap_and_visualize] on arbitrary Python integers

    The class itself only passes indices that are natural numbers, and
    [swap_and_visualize] above is the method on those.  The method is public;
    on any integers a Python list index counts from the end when negative. *)

(** The position that index [i] denotes in a list of length [n], or [None]
    when [i] is out of range ([-n <= i < n] is the range of a list). *)
Definition py_index (n : nat) (i : Z) : option nat :=
  if (i <? 0)%Z then
    if (i + Z.of_nat n <? 0)%Z then None else Some (Z.to_nat (i + Z.of_nat n))
  else
    if (i <? Z.of_nat n)%Z then Some (Z.to_nat i) else None.

(** [self.heap[i]] as an expression, [i] any integer. *)
Definition get_item_int (i : Z) : M Z :=
  fun s => match py_index (length (heap s)) i with
           | Some k => get_item k s
           | None => IndexError
           end.

(** [self.heap[i] = v], [i] any integer. *)
Definition set_item_int (i : Z) (v : Z) : M unit :=
  fun s => match py_index (length (heap s)) i with
           | Some k => set_item k v s
           | None => IndexError
           end.

(** The members of [highlight_nodes] that [draw_heap_tree] can find equal to
    an index of [enumerate(heap)]: the non-negative ones.  A frame records
    these. *)
Definition highlight_members (highlight_nodes : list Z) : list nat :=
  omap (λ z, if (z <? 0)%Z then None else Some (Z.to_nat z)) highlight_nodes.

Definition swap_and_visualize_int (i j : Z) : M unit :=
  let* vj := get_item_int j in
  let* vi := get_item_int i in
  set_item_int i vj ;;
  set_item_int j vi ;;
  graphviz_chart (highlight_members [i; j]).

(** Index arithmetic between a node and its children is linear. *)
Ltac child_lia := unfold child in *; lia.

(** ** Order facts *)

Lemma le_pol_refl b x : le_pol b x x.
Proof. destruct b; simpl; lia. Qed.

Lemma le_pol_trans b x y z : le_pol b x y → le_pol b y z → le_pol b x z.
Proof. destruct b; simpl; lia. Qed.

Lemma compare_true b x y : _compare b x y = true → le_pol b x y ∧ ¬ le_pol b y x.
Proof. unfold _compare; destruct b; simpl; lia. Qed.

Lemma compare_false b x y : _compare b x y = false → le_pol b y x.
Proof. unfold _compare; destruct b; simpl; lia. Qed.

Lemma compare_false_iff b x y : _compare b x y = false ↔ le_pol b y x.
Proof. unfold _compare; destruct b; simpl; lia. Qed.

(** ** The exchanged list *)

Lemma length_exchange h i j a b : length (exchange h i j a b) = length h.
Proof. unfold exchange. by rewrite !length_insert. Qed.

Lemma exchange_Permutation h i j a b :
  h !! i = Some a → h !! j = Some b → exchange h i j a b ≡ₚ h.
Proof. intros. by apply Permutation_insert_swap. Qed.

Lemma lookup_exchange_r h i j a b :
  j < length h → exchange h i j a b !! j = Some a.
Proof. intros. unfold exchange. apply list_lookup_insert_eq. by rewrite length_insert. Qed.

Lemma lookup_exchange_l h i j a b :
  i < length h → i ≠ j → exchange h i j a b !! i = Some b.
Proof.
  intros. unfold exchange. rewrite list_lookup_insert_ne by done.
  by apply list_lookup_insert_eq.
Qed.

Lemma lookup_exchange_ne h i j a b k :
  k ≠ i → k ≠ j → exchange h i j a b !! k = h !! k.
Proof. intros. unfold exchange. by rewrite !list_lookup_insert_ne. Qed.

(** ** Running the primitives *)

Lemma swap_and_visualize_run i j a b s :
  heap s !! i = Some a → heap s !! j = Some b →
  swap_and_visualize i j s =
  Ok (tt, State (exchange (heap s) i j a b)
                (plot s ++ [(exchange (heap s) i j a b, [i; j])]) (warnings s)).
Proof.
  intros Hi Hj. unfold swap_and_visualize, bind, get_item, set_item.
  rewrite Hj, Hi.
  apply lookup_lt_Some in Hi as Hli. apply lookup_lt_Some in Hj as Hlj.
  apply Nat.ltb_lt in Hli as ->. simpl.
  rewrite length_insert. apply Nat.ltb_lt in Hlj as ->. reflexivity.
Qed.

Lemma div2_child i : 0 < i → child ((i - 1) / 2) i.
Proof.
  intros Hi. unfold child.
  pose proof (Nat.div_mod_eq (i - 1) 2) as E.
  pose proof (Nat.mod_upper_bound (i - 1) 2) as B. lia.
Qed.

Lemma child_parent i c : child i c → (c - 1) / 2 = i ∧ 0 < c.
Proof.
  unfold child. intros [-> | ->]; split; try lia.
  - replace (2 * i + 1 - 1) with (i * 2) by lia. apply Nat.div_mul. lia.
  - replace (2 * i + 2 - 1) with (1 + i * 2) by lia.
    rewrite Nat.div_add by lia. reflexivity.
Qed.

Lemma select_swap_idx_run is_min i s :
  ∃ m, select_swap_idx is_min (length (heap s)) i s = Ok (m, s) ∧
       selects is_min (heap s) i m.
Proof.
  unfold select_swap_idx, selects, bind, get_item, ret. cbv beta zeta.
  destruct (Nat.ltb_spec (2 * i + 1) (length (heap s))) as [Hl | Hl].
  - destruct (lookup_lt_is_Some_2 (heap s) (2 * i + 1) Hl) as [l El].
    destruct (lookup_lt_is_Some_2 (heap s) i ltac:(lia)) as [x Ex].
    rewrite El, Ex.
    destruct (_compare is_min l x) eqn:Clx.
    + destruct (Nat.ltb_spec (2 * i + 2) (length (heap s))) as [Hr | Hr].
      * destruct (lookup_lt_is_Some_2 (heap s) (2 * i + 2) Hr) as [r Er].
        rewrite Er, El.
        destruct (_compare is_min r l) eqn:Crl; eexists; (split; [reflexivity|]); right.
        -- exists x, r. split_and!; [by right | done | done | |].
           ++ apply compare_true in Clx, Crl.
              unfold _compare, le_pol in *. destruct is_min; lia.
           ++ intros c z [-> | ->] Hz; rewrite Hz in *; simplify_eq.
              ** by apply compare_true in Crl as [? _].
              ** apply le_pol_refl.
        -- exists x, l. split_and!; [by left | done | done | done |].
           intros c z [-> | ->] Hz; rewrite Hz in *; simplify_eq.
           ++ apply le_pol_refl.
           ++ by apply compare_false.
      * eexists; split; [reflexivity|]. right.
        exists x, l. split_and!; [by left | done | done | done |].
        intros c z [-> | ->] Hz.
        -- rewrite Hz in El. simplify_eq. apply le_pol_refl.
        -- apply lookup_lt_Some in Hz. lia.
    + destruct (Nat.ltb_spec (2 * i + 2) (length (heap s))) as [Hr | Hr].
      * destruct (lookup_lt_is_Some_2 (heap s) (2 * i + 2) Hr) as [r Er].
        rewrite Er, Ex.
        destruct (_compare is_min r x) eqn:Crx; eexists; (split; [reflexivity|]).
        -- right. exists x, r. split_and!; [by right | done | done | done |].
           intros c z [-> | ->] Hz; rewrite Hz in *; simplify_eq.
           ++ apply compare_true in Crx as [? _]. apply compare_false in Clx.
              by eapply le_pol_trans.
           ++ apply le_pol_refl.
        -- left. split; [done|].
           intros c x' y [-> | ->] Hx Hy; rewrite Hx in *; rewrite Hy in *; simplify_eq.
           ++ by apply compare_false.
           ++ by apply compare_false.
      * eexists; split; [reflexivity|]. left. split; [done|].
        intros c x' y [-> | ->] Hx Hy.
        -- rewrite Hx in Ex. rewrite Hy in El. simplify_eq. by apply compare_false.
        -- apply lookup_lt_Some in Hy. lia.
  - destruct (Nat.ltb_spec (2 * i + 2) (length (heap s))) as [Hr | Hr]; [lia|].
    eexists; split; [reflexivity|]. left. split; [done|].
    intros c x y [-> | ->] _ Hy; apply lookup_lt_Some in Hy; lia.
Qed.

(** ** The loops, with enough fuel, follow the big-step relations *)

Lemma state_eta s : State (heap s) (plot s ++ []) (warnings s) = s.
Proof. destruct s; simpl. by rewrite app_nil_r. Qed.

Lemma heapify_down_loop_run is_min fuel :
  ∀ i s, 0 < fuel → length (heap s) < fuel + i →
    ∃ h' evs,
      heapify_down_loop is_min fuel (length (heap s)) i s
      = Ok (tt, State h' (plot s ++ evs) (warnings s)) ∧
      sift_down is_min i (heap s) h' evs.
Proof.
  induction fuel as [|fuel IH]; intros i s Hpos Hfuel; [lia|].
  cbn [heapify_down_loop]. unfold bind at 1.
  destruct (select_swap_idx_run is_min i s)
    as (m & -> & [[-> Hok] | (x & y & Hc & Hx & Hy & Hcmp & Hmin)]).
  - rewrite Nat.eqb_refl. cbn [negb]. exists (heap s), [].
    unfold ret. rewrite state_eta. split; [done | by constructor].
  - assert (m ≠ i) as Hne by (destruct Hc; lia).
    apply Nat.eqb_neq in Hne as ->. cbn [negb]. unfold bind.
    rewrite (swap_and_visualize_run _ _ x y) by done.
    set (s1 := State _ _ _).
    assert (length (heap s1) = length (heap s)) as Hlen
      by apply length_exchange.
    apply lookup_lt_Some in Hy as Hm.
    destruct (IH m s1) as (h' & evs & Hrun & Hsift).
    { destruct Hc; lia. }
    { rewrite Hlen. destruct Hc; lia. }
    rewrite Hlen in Hrun. rewrite Hrun.
    exists h', ((exchange (heap s) i m x y, [i; m]) :: evs). split.
    + subst s1; simpl. by rewrite <- app_assoc.
    + by eapply sift_down_swap.
Qed.

Lemma heapify_down_run is_min fuel i s :
  length (heap s) < fuel →
  ∃ h' evs,
    _heapify_down is_min fuel i s
    = Ok (tt, State h' (plot s ++ evs) (warnings s)) ∧
    sift_down is_min i (heap s) h' evs.
Proof.
  intros Hfuel. unfold _heapify_down, bind, len.
  apply heapify_down_loop_run; lia.
Qed.

Lemma heapify_up_run is_min fuel :
  ∀ i s, i < fuel → (i = 0 ∨ i < length (heap s)) →
    ∃ h' evs,
      _heapify_up is_min fuel i s
      = Ok (tt, State h' (plot s ++ evs) (warnings s)) ∧
      sift_up is_min i (heap s) h' evs.
Proof.
  induction fuel as [|fuel IH]; intros i s Hfuel Hi; [lia|].
  cbn [_heapify_up].
  destruct (Nat.ltb_spec 0 i) as [Hpos | Hz].
  - destruct Hi as [-> | Hi]; [lia|]. cbv zeta.
    pose proof (div2_child i Hpos) as Hc.
    destruct (lookup_lt_is_Some_2 (heap s) i Hi) as [x Hx].
    destruct (lookup_lt_is_Some_2 (heap s) ((i - 1) / 2)) as [y Hy].
    { destruct Hc; lia. }
    unfold bind at 1, get_item at 1. rewrite Hx.
    unfold bind at 1, get_item at 1. rewrite Hy.
    destruct (_compare is_min x y) eqn:Hcmp.
    + unfold bind. rewrite (swap_and_visualize_run _ _ x y) by done.
      set (s1 := State _ _ _).
      destruct (IH ((i - 1) / 2) s1) as (h' & evs & Hrun & Hsift).
      { destruct Hc; lia. }
      { right. subst s1; cbn [heap]. rewrite length_exchange. destruct Hc; lia. }
      rewrite Hrun.
      exists h', ((exchange (heap s) i ((i - 1) / 2) x y, [i; (i - 1) / 2]) :: evs).
      split.
      * subst s1; simpl. by rewrite <- app_assoc.
      * by eapply sift_up_swap.
    + exists (heap s), []. unfold ret. rewrite state_eta.
      split; [done | by eapply sift_up_stop].
  - assert (i = 0) as -> by lia.
    exists (heap s), []. unfold ret. rewrite state_eta.
    split; [done | constructor].
Qed.

(** ** What the sift relations preserve *)

Lemma lookup_exchange h i j a b k :
  h !! i = Some a → h !! j = Some b → i ≠ j →
  exchange h i j a b !! k =
  if decide (k = j) then Some a else if decide (k = i) then Some b else h !! k.
Proof.
  intros Hi Hj Hne.
  apply lookup_lt_Some in Hi. apply lookup_lt_Some in Hj.
  repeat case_decide; subst.
  - by apply lookup_exchange_r.
  - by apply lookup_exchange_l.
  - by apply lookup_exchange_ne.
Qed.

Lemma sift_down_length is_min i h h' evs :
  sift_down is_min i h h' evs → length h' = length h.
Proof.
  induction 1 as [|i m x y h h' evs _ _ _ _ _ _ IH]; [done|].
  by rewrite IH, length_exchange.
Qed.

Lemma sift_down_Permutation is_min i h h' evs :
  sift_down is_min i h h' evs → h' ≡ₚ h.
Proof.
  induction 1 as [|i m x y h h' evs _ Hx Hy _ _ _ IH]; [done|].
  rewrite IH. by apply exchange_Permutation.
Qed.

Lemma sift_up_length is_min i h h' evs :
  sift_up is_min i h h' evs → length h' = length h.
Proof.
  induction 1 as [| |i x y h h' evs _ _ _ _ _ IH]; [done..|].
  by rewrite IH, length_exchange.
Qed.

Lemma sift_up_Permutation is_min i h h' evs :
  sift_up is_min i h h' evs → h' ≡ₚ h.
Proof.
  induction 1 as [| |i x y h h' evs _ Hx Hy _ _ IH]; [done..|].
  rewrite IH. by apply exchange_Permutation.
Qed.

(** A node already in order with its children is left where it is. *)
Lemma sift_down_local_ok is_min i h h' evs :
  local_ok is_min h i → sift_down is_min i h h' evs → h' = h ∧ evs = [].
Proof.
  intros Hok Hs. destruct Hs as [|i m x y h h' evs Hc Hx Hy Hcmp _ _]; [done|].
  apply compare_true in Hcmp as [_ Hn]. destruct Hn. by eapply Hok.
Qed.

Lemma sift_down_below is_min i h h' evs :
  sift_down is_min i h h' evs → ∀ j, j < i → h' !! j = h !! j.
Proof.
  induction 1 as [|i m x y h h' evs Hc _ _ _ _ _ IH]; intros j Hj; [done|].
  rewrite IH by child_lia. apply lookup_exchange_ne; child_lia.
Qed.

Lemma sift_down_ordered is_min i0 i h h' evs :
  sift_down is_min i h h' evs →
  down_inv is_min i0 i h → ordered_from is_min i0 h'.
Proof.
  induction 1 as [i h Hok | i m x y h h' evs Hc Hx Hy Hcmp Hmin _ IH];
    intros [Hrest Hgrand].
  - intros j Hj. destruct (decide (j = i)) as [-> | Hne]; auto.
  - assert (i ≠ m) as Him by (unfold child in Hc; lia).
    apply IH. split.
    + intros j Hj Hjm c u v Hjc Hu Hv.
      rewrite (lookup_exchange _ _ _ _ _ j Hx Hy Him) in Hu.
      rewrite (lookup_exchange _ _ _ _ _ c Hx Hy Him) in Hv.
      repeat case_decide; simplify_eq; try (exfalso; child_lia).
      * by apply compare_true in Hcmp as [? _].
      * by eapply (Hgrand j m).
      * by eapply Hmin.
      * by eapply (Hrest j).
    + intros p c u v Hp Hpm Hmc Hu Hv.
      assert (p = i) as -> by (child_lia).
      rewrite (lookup_exchange _ _ _ _ _ i Hx Hy Him) in Hu.
      rewrite (lookup_exchange _ _ _ _ _ c Hx Hy Him) in Hv.
      repeat case_decide; simplify_eq; try (child_lia).
      eapply (Hrest m); eauto. child_lia.
Qed.

Lemma sift_up_ordered is_min i h h' evs :
  sift_up is_min i h h' evs → up_inv is_min i h → heap_ordered is_min h'.
Proof.
  induction 1 as [h | i x y h Hpos Hx Hy Hcmp
                    | i x y h h' evs Hpos Hx Hy Hcmp _ IH];
    intros [Hrest Hgrand].
  - intros j c u v Hjc. apply Hrest; [done|]. unfold child in Hjc; lia.
  - intros j c u v Hjc Hu Hv.
    destruct (decide (c = i)) as [-> | Hne]; [|by eapply Hrest].
    apply child_parent in Hjc as [<- _]. simplify_eq. by apply compare_false.
  - pose proof (div2_child i Hpos) as Hc.
    set (p := (i - 1) / 2) in *.
    assert (i ≠ p) as Hip by (unfold child in Hc; lia).
    apply compare_true in Hcmp as [Hxy _].
    apply IH. split.
    + intros j c u v Hjc Hcp Hu Hv.
      rewrite (lookup_exchange _ _ _ _ _ j Hx Hy Hip) in Hu.
      rewrite (lookup_exchange _ _ _ _ _ c Hx Hy Hip) in Hv.
      repeat case_decide; simplify_eq; try (child_lia).
      * done.
      * eapply le_pol_trans; [exact Hxy|]. by eapply (Hrest p c).
      * by eapply (Hgrand p c).
      * by eapply (Hrest j c).
    + intros pp c u v Hpp Hpc Hu Hv.
      rewrite (lookup_exchange _ _ _ _ _ pp Hx Hy Hip) in Hu.
      rewrite (lookup_exchange _ _ _ _ _ c Hx Hy Hip) in Hv.
      assert (p ≠ i) by done.
      repeat case_decide; simplify_eq; try (child_lia).
      * eapply (Hrest pp p); eauto.
      * eapply le_pol_trans; [by eapply (Hrest pp p)|by eapply (Hrest p c)].
Qed.

(** ** The bottom-up pass of [build_heap] *)

Lemma for_each_heapify_down_run is_min fuel l :
  ∀ s, length (heap s) < fuel →
    ∃ h' evs,
      for_each l (λ i, _heapify_down is_min fuel i) s
      = Ok (tt, State h' (plot s ++ evs) (warnings s)) ∧
      sift_all is_min l (heap s) h' evs.
Proof.
  induction l as [|i l IH]; intros s Hfuel.
  - exists (heap s), []. cbn [for_each]. unfold ret. rewrite state_eta.
    split; [done | constructor].
  - cbn [for_each]. unfold bind.
    destruct (heapify_down_run is_min fuel i s Hfuel) as (h1 & e1 & -> & Hs).
    set (s1 := State _ _ _).
    destruct (IH s1) as (h' & e2 & -> & Hall).
    { subst s1; cbn [heap]. by rewrite (sift_down_length _ _ _ _ _ Hs). }
    exists h', (e1 ++ e2). subst s1; cbn [heap plot warnings].
    rewrite <- app_assoc. split; [done | by econstructor].
Qed.

Lemma sift_all_Permutation is_min l h h' evs :
  sift_all is_min l h h' evs → h' ≡ₚ h.
Proof.
  induction 1 as [|i l h h1 h' e1 e2 Hs _ IH]; [done|].
  rewrite IH. by eapply sift_down_Permutation.
Qed.

Lemma sift_all_heap_ordered is_min l h h' evs :
  heap_ordered is_min h → sift_all is_min l h h' evs → h' = h ∧ evs = [].
Proof.
  intros Hh. induction 1 as [|i l h h1 h' e1 e2 Hs _ IH]; [done|].
  destruct (sift_down_local_ok _ _ _ _ _ (Hh i) Hs) as [-> ->].
  by apply IH.
Qed.

Lemma reversed_range_S k : reversed_range (S k) = k :: reversed_range k.
Proof. unfold reversed_range. by rewrite seq_S, rev_app_distr. Qed.

Lemma sift_all_reversed_range is_min k :
  ∀ h h' evs,
    sift_all is_min (reversed_range k) h h' evs →
    ordered_from is_min k h → heap_ordered is_min h'.
Proof.
  induction k as [|k IH]; intros h h' evs Hall Hfrom.
  - inversion Hall; subst. intros j. apply Hfrom. lia.
  - rewrite reversed_range_S in Hall. inversion Hall; subst.
    eapply IH; [eassumption|].
    eapply sift_down_ordered; [eassumption|]. split.
    + intros j Hj Hne. apply Hfrom. lia.
    + intros p c u v Hp Hpk. unfold child in Hpk; lia.
Qed.

Lemma ordered_from_half is_min h : ordered_from is_min (length h / 2) h.
Proof.
  intros j Hj c x y Hc _ Hy. apply lookup_lt_Some in Hy.
  pose proof (Nat.div_mod_eq (length h) 2) as E.
  pose proof (Nat.mod_upper_bound (length h) 2) as B.
  unfold child in Hc. lia.
Qed.

(** ** The three operations, with enough fuel *)

Lemma build_heap_run is_min fuel arr s :
  length arr < fuel →
  ∃ h' evs,
    build_heap is_min fuel arr s
    = Ok (tt, State h' (plot s ++ (arr, []) :: evs) (warnings s)) ∧
    sift_all is_min (reversed_range (length arr / 2)) arr h' evs.
Proof.
  intros Hfuel. unfold build_heap, bind, assign_copy, graphviz_chart, len, set_heap.
  cbn [heap plot warnings].
  set (s1 := State _ _ _).
  destruct (for_each_heapify_down_run is_min fuel
              (reversed_range (length arr / 2)) s1 Hfuel)
    as (h' & evs & -> & Hall).
  exists h', evs. subst s1; cbn [heap plot warnings] in *.
  by rewrite <- app_assoc.
Qed.

Lemma sift_all_build_ordered is_min arr h' evs :
  sift_all is_min (reversed_range (length arr / 2)) arr h' evs →
  heap_ordered is_min h'.
Proof.
  intros Hall. eapply sift_all_reversed_range; [eassumption|].
  apply ordered_from_half.
Qed.

Lemma insert_run is_min fuel v s :
  length (heap s) < fuel →
  ∃ h' evs,
    insert is_min fuel v s
    = Ok (tt, State h' (plot s ++ evs) (warnings s)) ∧
    sift_up is_min (length (heap s)) (heap s ++ [v]) h' evs.
Proof.
  intros Hfuel. unfold insert, bind, append, len, set_heap.
  cbn [heap plot warnings].
  rewrite length_app. cbn [length].
  replace (length (heap s) + 1 - 1) with (length (heap s)) by lia.
  set (s1 := State _ _ _).
  destruct (heapify_up_run is_min fuel (length (heap s)) s1 Hfuel)
    as (h' & evs & -> & Hup).
  { right. subst s1; cbn [heap]. rewrite length_app. cbn [length]. lia. }
  by exists h', evs.
Qed.

Lemma up_inv_append is_min h v :
  heap_ordered is_min h → up_inv is_min (length h) (h ++ [v]).
Proof.
  intros Hh. split.
  - intros j c u w Hjc Hne Hu Hw.
    apply lookup_lt_Some in Hw as Hlt. rewrite length_app in Hlt. cbn in Hlt.
    rewrite lookup_app_l in Hw by lia.
    rewrite lookup_app_l in Hu by (unfold child in Hjc; lia).
    by eapply Hh.
  - intros p c u w _ Hkc _ Hw.
    apply lookup_lt_Some in Hw. rewrite length_app in Hw. cbn in Hw.
    unfold child in Hkc; lia.
Qed.

Lemma delete_root_empty_run is_min fuel s :
  heap s = [] →
  delete_root is_min fuel s
  = Ok (None, State (heap s) (plot s) (warnings s ++ ["Heap is empty!"%string])).
Proof.
  intros E. unfold delete_root, bind, len. cbv beta. rewrite E. cbn [length Nat.eqb].
  unfold st_warning, ret. by rewrite E.
Qed.

Lemma delete_root_run is_min fuel r t s :
  heap s = r :: t → length (heap s) ≤ fuel →
  ∃ h' evs,
    delete_root is_min fuel s
    = Ok (Some r, State h' (plot s ++ evs) (warnings s)) ∧
    ((t = [] ∧ h' = [] ∧ evs = []) ∨
     (∃ l t', t = t' ++ [l] ∧ sift_down is_min 0 (l :: t') h' evs)).
Proof.
  intros E Hfuel. unfold delete_root. unfold bind at 1, len at 1. rewrite E.
  cbn [length Nat.eqb]. cbv beta iota.
  unfold bind at 1, get_item at 1. rewrite E. cbn [lookup list_lookup]. cbv beta iota.
  unfold bind at 1, pop at 1. rewrite E.
  destruct t as [|l t' _] using rev_ind.
  - cbn [list.last removelast]. cbv beta iota.
    unfold bind at 1, len at 1, set_heap. cbn [heap length Nat.eqb negb]. cbv beta iota.
    unfold bind, ret. exists [], []. rewrite app_nil_r. split; [done | by left].
  - rewrite app_comm_cons, last_snoc, removelast_last. cbv beta iota.
    unfold bind at 1, len at 1, set_heap. cbn [heap length Nat.eqb negb]. cbv beta iota.
    unfold bind at 1. unfold bind at 1, set_item at 1.
    cbn [heap plot warnings length Nat.ltb Nat.leb]. cbv beta iota.
    unfold set_heap. cbn [heap plot warnings].
    change (<[0:=l]> (r :: t')) with (l :: t').
    set (s1 := State _ _ _).
    destruct (heapify_down_run is_min fuel 0 s1) as (h' & evs & -> & Hs).
    { subst s1; cbn [heap length]. rewrite E in Hfuel.
      cbn [length] in Hfuel. rewrite length_app in Hfuel. cbn in Hfuel. lia. }
    exists h', evs. split; [done|]. right. by exists l, t'.
Qed.

Lemma down_inv_replace_root is_min r l t :
  heap_ordered is_min (r :: t ++ [l]) → down_inv is_min 0 0 (l :: t).
Proof.
  intros Hh. split.
  - intros j _ Hj c u v Hjc Hu Hv.
    assert (0 < c) by (unfold child in Hjc; lia).
    destruct j as [|j]; [done|]. destruct c as [|c]; [lia|].
    change (t !! j = Some u) in Hu. change (t !! c = Some v) in Hv.
    apply (Hh (S j) (S c) u v Hjc).
    + change ((t ++ [l]) !! j = Some u).
      rewrite lookup_app_l; [done | by eapply lookup_lt_Some].
    + change ((t ++ [l]) !! c = Some v).
      rewrite lookup_app_l; [done | by eapply lookup_lt_Some].
  - intros p c u v _ Hp. unfold child in Hp; lia.
Qed.

(** In a heap-ordered list the root precedes every element. *)
Lemma root_minimal is_min h r :
  heap_ordered is_min h → h !! 0 = Some r →
  ∀ i x, h !! i = Some x → le_pol is_min r x.
Proof.
  intros Hh Hr i. induction i as [i IH] using lt_wf_ind. intros x Hx.
  destruct (decide (i = 0)) as [-> | Hi].
  - simplify_eq. apply le_pol_refl.
  - pose proof (div2_child i ltac:(lia)) as Hc.
    destruct (lookup_lt_is_Some_2 h ((i - 1) / 2)) as [y Hy].
    { apply lookup_lt_Some in Hx. unfold child in Hc; lia. }
    eapply le_pol_trans.
    + eapply (IH ((i - 1) / 2)); [unfold child in Hc; lia | exact Hy].
    + by eapply (Hh ((i - 1) / 2) i).
Qed.

(** ** Summary of each operation on the heap it is given *)

Lemma build_heap_spec is_min fuel arr s :
  length arr < fuel →
  ∃ h' evs,
    build_heap is_min fuel arr s
    = Ok (tt, State h' (plot s ++ (arr, []) :: evs) (warnings s)) ∧
    h' ≡ₚ arr ∧ heap_ordered is_min h'.
Proof.
  intros Hfuel.
  destruct (build_heap_run is_min fuel arr s Hfuel) as (h' & evs & Hrun & Hall).
  exists h', evs. split_and!; [done | |].
  - by eapply sift_all_Permutation.
  - by eapply sift_all_build_ordered.
Qed.

Lemma insert_spec is_min fuel v s :
  length (heap s) < fuel →
  ∃ h' evs,
    insert is_min fuel v s
    = Ok (tt, State h' (plot s ++ evs) (warnings s)) ∧
    h' ≡ₚ v :: heap s ∧
    (heap_ordered is_min (heap s) → heap_ordered is_min h').
Proof.
  intros Hfuel.
  destruct (insert_run is_min fuel v s Hfuel) as (h' & evs & Hrun & Hup).
  exists h', evs. split_and!; [done | |].
  - rewrite (sift_up_Permutation _ _ _ _ _ Hup).
    by rewrite Permutation_app_comm.
  - intros Hh. eapply sift_up_ordered; [eassumption|]. by apply up_inv_append.
Qed.

Lemma delete_root_spec is_min fuel r t s :
  heap s = r :: t → length (heap s) ≤ fuel →
  ∃ h' evs,
    delete_root is_min fuel s
    = Ok (Some r, State h' (plot s ++ evs) (warnings s)) ∧
    h' ≡ₚ t ∧
    (heap_ordered is_min (heap s) → heap_ordered is_min h').
Proof.
  intros E Hfuel.
  destruct (delete_root_run is_min fuel r t s E Hfuel)
    as (h' & evs & Hrun & [(Ht & Hh' & _) | (l & t' & Ht & Hs)]);
    exists h', evs; (split_and!; [done | |]); subst.
  - done.
  - intros _ i c x y _ Hx. by rewrite lookup_nil in Hx.
  - rewrite (sift_down_Permutation _ _ _ _ _ Hs).
    by rewrite Permutation_app_comm.
  - rewrite E. intros Hh j.
    eapply (sift_down_ordered is_min 0); [eassumption| | lia].
    by eapply down_inv_replace_root.
Qed.

(** ** More fuel never changes a result *)

Lemma bind_stable {A B} (m : M A) (k k' : A → M B) s :
  (∀ a s1, m s = Ok (a, s1) → k a s1 ≠ OutOfFuel → k' a s1 = k a s1) →
  bind m k s ≠ OutOfFuel → bind m k' s = bind m k s.
Proof.
  unfold bind. intros Hk Hne. destruct (m s) as [[a s1]| |]; [|done..].
  by apply Hk.
Qed.

Lemma fuel_stable_bind {A B} (f : nat → M A) (g : A → nat → M B) :
  fuel_stable f → (∀ a, fuel_stable (g a)) →
  fuel_stable (λ fuel, bind (f fuel) (λ a, g a fuel)).
Proof.
  intros Hf Hg fuel fuel' s Hle Hne. cbv beta in *.
  assert (f fuel s ≠ OutOfFuel) as Hfs.
  { intros E. unfold bind in Hne. by rewrite E in Hne. }
  unfold bind at 1. rewrite (Hf fuel fuel' s Hle Hfs). fold (bind (f fuel) (λ a, g a fuel') s).
  apply bind_stable; [|done]. intros a s1 _ Hg1. by apply Hg.
Qed.

Lemma fuel_stable_const {A} (m : M A) : fuel_stable (λ _, m).
Proof. by intros fuel fuel' s _ _. Qed.

Lemma heapify_up_stable is_min i :
  fuel_stable (λ fuel, _heapify_up is_min fuel i).
Proof.
  intros fuel. revert i.
  induction fuel as [|fuel IH]; intros i fuel' s Hle Hne; [done|].
  destruct fuel' as [|fuel']; [lia|]. cbn [_heapify_up] in *.
  destruct (0 <? i); [|done]. cbv zeta in *.
  apply bind_stable; [|done]. intros a s1 _ H1.
  apply bind_stable; [|done]. intros b s2 _ H2.
  destruct (_compare is_min a b); [|done].
  apply bind_stable; [|done]. intros [] s3 _ H3.
  apply IH; [lia | done].
Qed.

Lemma heapify_down_loop_stable is_min size i :
  fuel_stable (λ fuel, heapify_down_loop is_min fuel size i).
Proof.
  intros fuel. revert i.
  induction fuel as [|fuel IH]; intros i fuel' s Hle Hne; [done|].
  destruct fuel' as [|fuel']; [lia|]. cbn [heapify_down_loop] in *.
  apply bind_stable; [|done]. intros m s1 _ H1.
  destruct (negb (m =? i)); [|done].
  apply bind_stable; [|done]. intros [] s2 _ H2.
  apply IH; [lia | done].
Qed.

Lemma heapify_down_stable is_min i :
  fuel_stable (λ fuel, _heapify_down is_min fuel i).
Proof.
  unfold _heapify_down.
  apply (fuel_stable_bind (λ _, len) (λ size fuel, heapify_down_loop is_min fuel size i)).
  - apply fuel_stable_const.
  - intros size. apply heapify_down_loop_stable.
Qed.

Lemma for_each_stable (body : nat → nat → M unit) l :
  (∀ i, fuel_stable (λ fuel, body fuel i)) →
  fuel_stable (λ fuel, for_each l (body fuel)).
Proof.
  intros Hbody. induction l as [|i l IH]; cbn [for_each].
  - apply fuel_stable_const.
  - apply (fuel_stable_bind (λ fuel, body fuel i) (λ _ fuel, for_each l (body fuel))).
    + apply Hbody.
    + intros _. apply IH.
Qed.

Lemma build_heap_stable is_min arr :
  fuel_stable (λ fuel, build_heap is_min fuel arr).
Proof.
  unfold build_heap.
  apply (fuel_stable_bind (λ _, assign_copy arr)); [apply fuel_stable_const|].
  intros _.
  apply (fuel_stable_bind (λ _, graphviz_chart [])); [apply fuel_stable_const|].
  intros _.
  apply (fuel_stable_bind (λ _, len)); [apply fuel_stable_const|].
  intros n.
  apply (for_each_stable (λ fuel i, _heapify_down is_min fuel i)).
  intros i. apply heapify_down_stable.
Qed.

Lemma insert_stable is_min v :
  fuel_stable (λ fuel, insert is_min fuel v).
Proof.
  unfold insert.
  apply (fuel_stable_bind (λ _, append v)); [apply fuel_stable_const|].
  intros _.
  apply (fuel_stable_bind (λ _, len)); [apply fuel_stable_const|].
  intros n. apply heapify_up_stable.
Qed.

Lemma delete_root_stable is_min :
  fuel_stable (λ fuel, delete_root is_min fuel).
Proof.
  unfold delete_root.
  apply (fuel_stable_bind (λ _, len)); [apply fuel_stable_const|].
  intros n. destruct (n =? 0); [apply fuel_stable_const|].
  apply (fuel_stable_bind (λ _, get_item 0)); [apply fuel_stable_const|].
  intros root.
  apply (fuel_stable_bind (λ _, pop)); [apply fuel_stable_const|].
  intros last.
  apply (fuel_stable_bind (λ _, len)); [apply fuel_stable_const|].
  intros n'.
  apply (fuel_stable_bind
           (λ fuel, if negb (n' =? 0)
                    then set_item 0 last ;; _heapify_down is_min fuel 0
                    else ret tt)
           (λ _ _, ret (Some root))); [|intros _; apply fuel_stable_const].
  destruct (negb (n' =? 0)); [|apply fuel_stable_const].
  apply (fuel_stable_bind (λ _, set_item 0 last)); [apply fuel_stable_const|].
  intros _. apply heapify_down_stable.
Qed.

Lemma run_op_spec is_min fuel o s :
  length (heap s) + op_size o < fuel →
  ∃ r s',
    run_op is_min fuel o s = Ok (r, s') ∧
    length (heap s') ≤ length (heap s) + op_size o ∧
    (heap_ordered is_min (heap s) → heap_ordered is_min (heap s')) ∧
    returned_ok (list_to_set_disj (heap s)) o r ∧
    list_to_set_disj (heap s') = multiset_after (list_to_set_disj (heap s)) o r.
Proof.
  intros Hfuel. destruct o as [arr | v |]; cbn [op_size run_op] in *.
  - destruct (build_heap_spec is_min fuel arr s) as (h' & evs & Hrun & Hp & Hord);
      [lia|].
    eexists None, _. unfold bind, ret. rewrite Hrun.
    split; [reflexivity|]. cbn [heap].
    split_and!; [| done | done | by rewrite Hp].
    rewrite (Permutation_length Hp). lia.
  - destruct (insert_spec is_min fuel v s) as (h' & evs & Hrun & Hp & Hord);
      [lia|].
    eexists None, _. unfold bind, ret. rewrite Hrun.
    split; [reflexivity|]. cbn [heap].
    split_and!; [| done | done |].
    + rewrite (Permutation_length Hp). cbn [length]. lia.
    + rewrite Hp, list_to_set_disj_cons. cbn [multiset_after]. multiset_solver.
  - destruct (heap s) as [|r t] eqn:E.
    + rewrite (delete_root_empty_run is_min fuel s E).
      eexists None, _. split; [reflexivity|]. cbn [heap]. rewrite E.
      by split_and!.
    + destruct (delete_root_spec is_min fuel r t s E) as (h' & evs & Hrun & Hp & Hord).
      { rewrite E. cbn [length] in *. lia. }
      eexists (Some r), _. rewrite Hrun.
      split; [reflexivity|]. cbn [heap].
      split_and!; [| by rewrite <- E | |].
      * rewrite (Permutation_length Hp). cbn [length]. lia.
      * cbn [returned_ok]. rewrite list_to_set_disj_cons. multiset_solver.
      * cbn [multiset_after]. rewrite Hp, list_to_set_disj_cons. multiset_solver.
Qed.

Lemma run_ops_spec is_min fuel ops :
  ∀ s, length (heap s) + ops_size ops < fuel →
    ∃ obs s',
      run_ops is_min fuel ops s = Ok (obs, s') ∧
      length obs = length ops ∧
      (heap_ordered is_min (heap s) →
       Forall (λ o, heap_ordered is_min o.2) obs ∧ heap_ordered is_min (heap s')) ∧
      returns_valid (list_to_set_disj (heap s)) ops obs.*1 ∧
      list_to_set_disj (heap s') = expected (list_to_set_disj (heap s)) ops obs.*1.
Proof.
  induction ops as [|o ops IH]; intros s Hfuel.
  - exists [], s. cbn. by split_and!.
  - change (ops_size (o :: ops)) with (op_size o + ops_size ops) in Hfuel.
    destruct (run_op_spec is_min fuel o s) as (r & s1 & Hrun & Hlen & Hord & Hret & Hms);
      [lia|].
    destruct (IH s1) as (obs & s' & Hrest & Hlobs & Hords & Hrets & Hexp); [lia|].
    exists ((r, heap s1) :: obs), s'. cbn [run_ops].
    unfold bind at 1. rewrite Hrun. unfold bind at 1, get_heap.
    unfold bind at 1. rewrite Hrest. unfold ret.
    split_and!.
    + done.
    + cbn [length]. by rewrite Hlobs.
    + intros Hs. destruct (Hords (Hord Hs)) as [Hall Hfin].
      split; [|done]. constructor; [by apply Hord | done].
    + cbn [fmap list_fmap fst returns_valid]. split; [done|]. by rewrite <- Hms.
    + cbn [fmap list_fmap fst expected]. by rewrite <- Hms.
Qed.

Lemma delete_roots_S is_min fuel n :
  delete_roots is_min fuel (S n)
  = (let* r := delete_root is_min fuel in
     let* rs := delete_roots is_min fuel n in
     ret (r :: rs)).
Proof. reflexivity. Qed.

Lemma delete_roots_stable is_min n :
  fuel_stable (λ fuel, delete_roots is_min fuel n).
Proof.
  induction n as [|n IH]; cbn [delete_roots]; [apply fuel_stable_const|].
  apply (fuel_stable_bind (λ fuel, delete_root is_min fuel)
           (λ r fuel, let* rs := delete_roots is_min fuel n in ret (r :: rs))).
  - apply delete_root_stable.
  - intros r.
    apply (fuel_stable_bind (λ fuel, delete_roots is_min fuel n)
             (λ rs _, ret (r :: rs))); [done|].
    intros rs. apply fuel_stable_const.
Qed.

(** Emptying a heap-ordered heap: the values come out sorted, and the call
    after the last value finds the heap empty. *)
Lemma delete_roots_drain is_min fuel n :
  ∀ s, length (heap s) = n → n ≤ fuel → heap_ordered is_min (heap s) →
    ∃ vals s',
      delete_roots is_min fuel (S n) s = Ok ((Some <$> vals) ++ [None], s') ∧
      vals ≡ₚ heap s ∧
      Sorted (le_pol is_min) vals ∧
      heap s' = [] ∧
      warnings s' = warnings s ++ ["Heap is empty!"%string].
Proof.
  induction n as [|n IH]; intros s Hlen Hfuel Hord.
  - apply nil_length_inv in Hlen.
    exists [], (State (heap s) (plot s) (warnings s ++ ["Heap is empty!"%string])).
    rewrite delete_roots_S. unfold bind at 1.
    rewrite (delete_root_empty_run is_min fuel s Hlen).
    cbn [delete_roots]. unfold bind, ret. cbn [heap warnings fmap list_fmap app].
    rewrite Hlen. by split_and!.
  - destruct (heap s) as [|r t] eqn:E; [done|].
    destruct (delete_root_spec is_min fuel r t s E) as (h' & evs & Hrun & Hp & Hord').
    { rewrite E. lia. }
    set (s1 := State h' (plot s ++ evs) (warnings s)) in *.
    destruct (IH s1) as (vals & s' & Hrest & Hpv & Hsorted & Hempty & Hwarn).
    { subst s1; cbn [heap]. rewrite (Permutation_length Hp).
      cbn [length] in Hlen. lia. }
    { lia. }
    { apply Hord'. by rewrite E. }
    exists (r :: vals), s'.
    rewrite delete_roots_S. unfold bind at 1. rewrite Hrun.
    unfold bind at 1. rewrite Hrest. unfold ret.
    split_and!; [done | | | done | done].
    + subst s1; cbn [heap] in Hpv. by rewrite Hpv, Hp.
    + constructor; [done|].
      destruct vals as [|v vals]; constructor.
      assert (v ∈ r :: t) as Hin.
      { right. subst s1; cbn [heap] in Hpv. rewrite <- Hp, <- Hpv. by left. }
      apply list_elem_of_lookup in Hin as [i Hi].
      rewrite <- E in Hord. eapply (root_minimal is_min (heap s) r Hord).
      * by rewrite E.
      * by rewrite E.
Qed.

Lemma stable_no_index_error {A} (f : nat → M A) (s : state) (bound : nat) :
  fuel_stable f →
  (∀ fuel, bound ≤ fuel → ∃ r, f fuel s = Ok r) →
  ∀ fuel, f fuel s ≠ IndexError.
Proof.
  intros Hst Hrun fuel E.
  destruct (Hrun (fuel `max` bound)) as [r Hr]; [lia|].
  rewrite (Hst fuel (fuel `max` bound) s) in Hr; [congruence | lia |].
  by rewrite E.
Qed.

Lemma heap_orderedb_sound is_min h :
  heap_orderedb is_min h = true → heap_ordered is_min h.
Proof.
  unfold heap_orderedb. rewrite forallb_forall.
  intros Hall i c x y Hc Hx Hy.
  assert (In i (seq 0 (length h))) as Hin.
  { apply in_seq. apply lookup_lt_Some in Hx. lia. }
  apply Hall in Hin. apply andb_prop in Hin as [Hl Hr].
  unfold pair_okb in Hl, Hr. rewrite Hx in Hl, Hr.
  destruct Hc as [-> | ->]; [rewrite Hy in Hl | rewrite Hy in Hr];
    apply compare_false; by apply negb_true_iff.
Qed.

(** ** Properties of the heap engine *)

(** C1 (heap-order invariant): for either polarity, along every sequence of
    build, insert and delete-root actions run with enough fuel on a heap
    that is in heap order (an empty heap is), every action completes and
    the array read after each action is in heap order: each index precedes
    its existing children 2i+1 and 2i+2 under the polarity. *)
Theorem heap_order_invariant (is_min : bool) (ops : list op) (fuel : nat) (s : state) :
  heap_ordered is_min (heap s) →
  length (heap s) + ops_size ops < fuel →
  ∃ obs s',
    run_ops is_min fuel ops s = Ok (obs, s') ∧
    length obs = length ops ∧
    Forall (λ o, ∀ i c x y, child i c → o.2 !! i = Some x → o.2 !! c = Some y →
                   if is_min then (x <= y)%Z else (x >= y)%Z) obs.
Proof.
  intros Hs Hfuel.
  destruct (run_ops_spec is_min fuel ops s Hfuel)
    as (obs & s' & Hrun & Hlen & Hord & _).
  exists obs, s'. split_and!; [done..|].
  destruct (Hord Hs) as [Hall _].
  eapply Forall_impl; [|exact Hall].
  intros [r h] Hh i c x y Hc Hx Hy. apply (Hh i c x y Hc Hx Hy).
Qed.

Lemma heap_order_invariant_witness :
  ∃ obs s',
    run_ops false 8 [Build [3; 1; 2]%Z; Insert 7%Z; DeleteRoot; DeleteRoot] init
    = Ok (obs, s') ∧
    length obs = 4 ∧
    Forall (λ o, ∀ i c x y, child i c → o.2 !! i = Some x → o.2 !! c = Some y →
                   (x >= y)%Z) obs.
Proof.
  apply (heap_order_invariant false
           [Build [3; 1; 2]%Z; Insert 7%Z; DeleteRoot; DeleteRoot] 8 init).
  - apply heap_orderedb_sound. reflexivity.
  - vm_compute. lia.
Defined.

(** C3 (permutation preservation): along every sequence of actions run with
    enough fuel, the multiset of the values in the heap afterwards is the one
    the actions determine: build replaces it by the multiset of its input,
    insert adds the inserted value, delete-root on a non-empty heap removes
    one copy of the value it returns (a value that was in the heap) and on an
    empty heap changes nothing. *)
Theorem multiset_preserved (is_min : bool) (ops : list op) (fuel : nat) (s : state) :
  length (heap s) + ops_size ops < fuel →
  ∃ obs s',
    run_ops is_min fuel ops s = Ok (obs, s') ∧
    length obs = length ops ∧
    returns_valid (list_to_set_disj (heap s)) ops obs.*1 ∧
    list_to_set_disj (heap s') = expected (list_to_set_disj (heap s)) ops obs.*1.
Proof.
  intros Hfuel.
  destruct (run_ops_spec is_min fuel ops s Hfuel)
    as (obs & s' & Hrun & Hlen & _ & Hret & Hexp).
  by exists obs, s'.
Qed.

Lemma multiset_preserved_witness :
  ∃ obs s',
    run_ops true 8 [Build [3; 1; 2]%Z; Insert 1%Z; DeleteRoot] init = Ok (obs, s') ∧
    length obs = 3 ∧
    returns_valid (list_to_set_disj (heap init))
      [Build [3; 1; 2]%Z; Insert 1%Z; DeleteRoot] obs.*1 ∧
    list_to_set_disj (heap s')
    = expected (list_to_set_disj (heap init))
        [Build [3; 1; 2]%Z; Insert 1%Z; DeleteRoot] obs.*1.
Proof.
  apply (multiset_preserved true [Build [3; 1; 2]%Z; Insert 1%Z; DeleteRoot] 8 init).
  vm_compute. lia.
Defined.

(** C4 (size accounting): with enough fuel, insert makes the heap exactly
    one longer; delete-root on a non-empty heap returns a value and makes the
    heap exactly one shorter; delete-root on the empty heap returns nothing
    (with the warning) and leaves the length at 0. *)
Theorem size_accounting (is_min : bool) (fuel : nat) (s : state) :
  length (heap s) < fuel →
  (∀ val, ∃ s', insert is_min fuel val s = Ok (tt, s') ∧
                length (heap s') = length (heap s) + 1) ∧
  match heap s with
  | [] =>
      ∃ s', delete_root is_min fuel s = Ok (None, s') ∧
            length (heap s') = 0 ∧
            warnings s' = warnings s ++ ["Heap is empty!"%string]
  | _ :: _ =>
      ∃ root s', delete_root is_min fuel s = Ok (Some root, s') ∧
                 length (heap s') + 1 = length (heap s)
  end.
Proof.
  intros Hfuel. split.
  - intros val.
    destruct (insert_spec is_min fuel val s Hfuel) as (h' & evs & Hrun & Hp & _).
    eexists. split; [exact Hrun|]. cbn [heap].
    rewrite (Permutation_length Hp). cbn [length]. lia.
  - destruct (heap s) as [|r t] eqn:E.
    + eexists. split; [by apply delete_root_empty_run|].
      cbn [heap warnings]. by rewrite E.
    + destruct (delete_root_spec is_min fuel r t s E) as (h' & evs & Hrun & Hp & _).
      { rewrite E in *. lia. }
      eexists r, _. split; [exact Hrun|]. cbn [heap].
      rewrite (Permutation_length Hp). cbn [length]. lia.
Qed.

Lemma size_accounting_witness :
  ((∀ val, ∃ s', insert true 5 val (State [1; 4; 2]%Z [] []) = Ok (tt, s') ∧
                 length (heap s') = 3 + 1) ∧
   ∃ root s', delete_root true 5 (State [1; 4; 2]%Z [] []) = Ok (Some root, s') ∧
              length (heap s') + 1 = 3) ∧
  ((∀ val, ∃ s', insert false 1 val init = Ok (tt, s') ∧
                 length (heap s') = 0 + 1) ∧
   ∃ s', delete_root false 1 init = Ok (None, s') ∧
         length (heap s') = 0 ∧
         warnings s' = [] ++ ["Heap is empty!"%string]).
Proof.
  split.
  - apply (size_accounting true 5 (State [1; 4; 2]%Z [] [])). simpl; lia.
  - apply (size_accounting false 1 init). simpl; lia.
Defined.

(** C5 (empty heap): delete-root on an empty heap returns nothing and sends
    the warning, leaves the array as it is and draws no frame, whatever the
    fuel. *)
Theorem empty_heap_delete_signals (is_min : bool) (fuel : nat) (s : state) :
  heap s = [] →
  ∃ s', delete_root is_min fuel s = Ok (None, s') ∧
        heap s' = heap s ∧
        plot s' = plot s ∧
        warnings s' = warnings s ++ ["Heap is empty!"%string].
Proof.
  intros E. eexists. split; [by apply delete_root_empty_run|]. done.
Qed.

Lemma empty_heap_delete_signals_witness :
  ∃ s', delete_root true 0 init = Ok (None, s') ∧
        heap s' = heap init ∧
        plot s' = plot init ∧
        warnings s' = warnings init ++ ["Heap is empty!"%string].
Proof. apply (empty_heap_delete_signals true 0 init). reflexivity. Defined.

(** C7 (build on a heap-ordered input): when the input is already in heap
    order for the polarity, build draws the raw layout and nothing else (no
    exchange), and the heap is the input unchanged. *)
Theorem build_heap_ordered_input (is_min : bool) (fuel : nat) (arr : list Z) (s : state) :
  heap_ordered is_min arr →
  length arr < fuel →
  build_heap is_min fuel arr s
  = Ok (tt, State arr (plot s ++ [(arr, [])]) (warnings s)).
Proof.
  intros Hh Hfuel.
  destruct (build_heap_run is_min fuel arr s Hfuel) as (h' & evs & -> & Hall).
  by destruct (sift_all_heap_ordered _ _ _ _ _ Hh Hall) as [-> ->].
Qed.

Lemma build_heap_ordered_input_witness :
  build_heap true 4 [1; 1; 2]%Z init
  = Ok (tt, State [1; 1; 2]%Z (plot init ++ [([1; 1; 2]%Z, [])]) (warnings init)).
Proof.
  apply (build_heap_ordered_input true 4 [1; 1; 2]%Z init).
  - apply heap_orderedb_sound. reflexivity.
  - simpl; lia.
Defined.

(** C2 (root extraction order): for every input and either polarity, after
    build (with enough fuel) as many delete-root calls as the input has
    values return the values of the input in sorted order, ascending for MIN
    and descending for MAX, and the call after them returns nothing and
    sends the empty-heap warning. *)
Theorem root_extraction_sorted (is_min : bool) (arr : list Z) (fuel : nat) (s : state) :
  length arr < fuel →
  ∃ s1 vals s2,
    build_heap is_min fuel arr s = Ok (tt, s1) ∧
    delete_roots is_min fuel (length arr + 1) s1
    = Ok ((Some <$> vals) ++ [None], s2) ∧
    length vals = length arr ∧
    vals ≡ₚ arr ∧
    Sorted (if is_min then Z.le else Z.ge) vals ∧
    warnings s2 = warnings s ++ ["Heap is empty!"%string].
Proof.
  intros Hfuel.
  destruct (build_heap_spec is_min fuel arr s Hfuel) as (h' & evs & Hrun & Hp & Hord).
  set (s1 := State h' _ _) in Hrun.
  destruct (delete_roots_drain is_min fuel (length arr) s1)
    as (vals & s2 & Hdrain & Hpv & Hsorted & _ & Hwarn).
  { subst s1; cbn [heap]. by rewrite (Permutation_length Hp). }
  { lia. }
  { done. }
  exists s1, vals, s2. rewrite Nat.add_1_r.
  subst s1; cbn [heap warnings] in *.
  split_and!; [done | done | | by rewrite Hpv | | done].
  - by rewrite (Permutation_length Hpv), (Permutation_length Hp).
  - by destruct is_min.
Qed.

Lemma root_extraction_sorted_witness :
  ∃ s1 vals s2,
    build_heap false 5 [2; 9; 2; 4]%Z init = Ok (tt, s1) ∧
    delete_roots false 5 (4 + 1) s1 = Ok ((Some <$> vals) ++ [None], s2) ∧
    length vals = 4 ∧
    vals ≡ₚ [2; 9; 2; 4]%Z ∧
    Sorted Z.ge vals ∧
    warnings s2 = [] ++ ["Heap is empty!"%string].
Proof.
  apply (root_extraction_sorted false [2; 9; 2; 4]%Z 5 init).
  simpl; lia.
Defined.

(** C8 (concrete scenario): building a MIN heap from
    [10,20,15,30,40,1,6,55,90,87] (with enough fuel, on a fresh heap) gives
    an array in MIN heap order, ten delete-root calls return
    1,6,10,15,20,30,40,55,87,90 in that order, and the eleventh returns
    nothing. *)
Theorem demo_min_heap (fuel : nat) :
  10 < fuel →
  ∃ s1 s2,
    build_heap true fuel [10; 20; 15; 30; 40; 1; 6; 55; 90; 87]%Z init = Ok (tt, s1) ∧
    heap s1 = [1; 20; 6; 30; 40; 15; 10; 55; 90; 87]%Z ∧
    heap_ordered true (heap s1) ∧
    delete_roots true fuel 11 s1
    = Ok ([Some 1; Some 6; Some 10; Some 15; Some 20; Some 30; Some 40;
           Some 55; Some 87; Some 90; None]%Z, s2) ∧
    warnings s2 = ["Heap is empty!"%string].
Proof.
  intros Hfuel. eexists _, _. split_and!.
  - rewrite (build_heap_stable true _ 11 fuel init); [| lia | by vm_compute].
    vm_compute. reflexivity.
  - reflexivity.
  - apply heap_orderedb_sound. reflexivity.
  - rewrite (delete_roots_stable true 11 11 fuel); [| lia | by vm_compute].
    vm_compute. reflexivity.
  - reflexivity.
Qed.

Lemma demo_min_heap_witness :
  ∃ s1 s2,
    build_heap true 11 [10; 20; 15; 30; 40; 1; 6; 55; 90; 87]%Z init = Ok (tt, s1) ∧
    heap s1 = [1; 20; 6; 30; 40; 15; 10; 55; 90; 87]%Z ∧
    heap_ordered true (heap s1) ∧
    delete_roots true 11 11 s1
    = Ok ([Some 1; Some 6; Some 10; Some 15; Some 20; Some 30; Some 40;
           Some 55; Some 87; Some 90; None]%Z, s2) ∧
    warnings s2 = ["Heap is empty!"%string].
Proof. apply (demo_min_heap 11). lia. Defined.

(** C6 (tie-break of sift-down): when both children of [index] exist, the
    left child is compared with the node first, and the right child is
    compared with the candidate chosen so far and replaces it only when
    strictly preferred to it; with enough fuel sift-down then returns, having
    drawn nothing and changed nothing when the candidate is the node itself,
    and otherwise having first exchanged the node with the chosen child and
    drawn that exchange.  So when the two children hold equal values that
    precede the parent, the exchange is performed with the left child: the
    first frame drawn is the exchange of [index] and [2 * index + 1], and the
    left child's value is at [index] when sift-down returns. *)
Theorem sift_down_tie_break (is_min : bool) (s : state) (index : nat) (x l r : Z) :
  heap s !! index = Some x →
  heap s !! (2 * index + 1) = Some l →
  heap s !! (2 * index + 2) = Some r →
  let cand := if _compare is_min l x then 2 * index + 1 else index in
  let cand_val := if _compare is_min l x then l else x in
  let swap_idx := if _compare is_min r cand_val then 2 * index + 2 else cand in
  select_swap_idx is_min (length (heap s)) index s = Ok (swap_idx, s) ∧
  (_compare is_min r cand_val = true →
   le_pol is_min r cand_val ∧ r ≠ cand_val) ∧
  (∀ fuel, length (heap s) < fuel →
     ∃ h' evs,
       _heapify_down is_min fuel index s
       = Ok (tt, State h' (plot s ++ evs) (warnings s)) ∧
       if decide (swap_idx = index) then h' = heap s ∧ evs = []
       else ∃ y rest,
           heap s !! swap_idx = Some y ∧
           evs = (exchange (heap s) index swap_idx x y, [index; swap_idx]) :: rest ∧
           h' !! index = Some y) ∧
  (l = r → _compare is_min l x = true →
   select_swap_idx is_min (length (heap s)) index s = Ok (2 * index + 1, s) ∧
   swap_and_visualize index (2 * index + 1) s
   = Ok (tt, State (exchange (heap s) index (2 * index + 1) x l)
                   (plot s ++ [(exchange (heap s) index (2 * index + 1) x l,
                                [index; 2 * index + 1])])
                   (warnings s)) ∧
   (∀ fuel,
      heapify_down_loop is_min (S fuel) (length (heap s)) index s
      = heapify_down_loop is_min fuel (length (heap s)) (2 * index + 1)
          (State (exchange (heap s) index (2 * index + 1) x l)
                 (plot s ++ [(exchange (heap s) index (2 * index + 1) x l,
                              [index; 2 * index + 1])])
                 (warnings s))) ∧
   ∀ fuel, length (heap s) < fuel →
     ∃ h' rest,
       _heapify_down is_min fuel index s
       = Ok (tt, State h'
                   (plot s ++ (exchange (heap s) index (2 * index + 1) x l,
                               [index; 2 * index + 1]) :: rest)
                   (warnings s)) ∧
       h' !! index = Some l).
Proof.
  intros Hx Hl Hr cand cand_val swap_idx.
  assert (select_swap_idx is_min (length (heap s)) index s = Ok (swap_idx, s))
    as Hsel.
  { unfold select_swap_idx, bind, get_item, ret. cbv beta zeta.
    apply lookup_lt_Some in Hl as Hll. apply lookup_lt_Some in Hr as Hlr.
    apply Nat.ltb_lt in Hll as ->. apply Nat.ltb_lt in Hlr as ->.
    rewrite Hl, Hx, Hr. subst swap_idx cand cand_val.
    destruct (_compare is_min l x); [rewrite Hl | rewrite Hx]; reflexivity. }
  assert (∀ fuel, length (heap s) < fuel →
     ∃ h' evs,
       _heapify_down is_min fuel index s
       = Ok (tt, State h' (plot s ++ evs) (warnings s)) ∧
       if decide (swap_idx = index) then h' = heap s ∧ evs = []
       else ∃ y rest,
           heap s !! swap_idx = Some y ∧
           evs = (exchange (heap s) index swap_idx x y, [index; swap_idx]) :: rest ∧
           h' !! index = Some y) as Hrun.
  { intros fuel Hfuel. apply lookup_lt_Some in Hr as Hlr.
    destruct fuel as [|fuel]; [lia|].
    unfold _heapify_down, bind at 1, len. cbn [heapify_down_loop].
    unfold bind at 1. rewrite Hsel.
    destruct (decide (swap_idx = index)) as [E | E].
    - rewrite (proj2 (Nat.eqb_eq _ _) E). cbn [negb].
      exists (heap s), []. unfold ret. by rewrite state_eta.
    - rewrite (proj2 (Nat.eqb_neq _ _) E). cbn [negb].
      assert (∃ y, heap s !! swap_idx = Some y ∧ child index swap_idx)
        as (y & Hy & Hc).
      { subst swap_idx cand.
        destruct (_compare is_min r cand_val);
          [exists r; split; [done | by right]|].
        destruct (_compare is_min l x); [|done].
        exists l. split; [done | by left]. }
      unfold bind. rewrite (swap_and_visualize_run _ _ x y) by done.
      set (s1 := State _ _ _).
      assert (length (heap s1) = length (heap s)) as Hlen
        by apply length_exchange.
      apply lookup_lt_Some in Hy as Hm.
      destruct (heapify_down_loop_run is_min fuel swap_idx s1)
        as (h' & rest & Hloop & Hsift).
      { unfold child in Hc; lia. }
      { rewrite Hlen. unfold child in Hc; lia. }
      rewrite Hlen in Hloop. rewrite Hloop.
      exists h', ((exchange (heap s) index swap_idx x y, [index; swap_idx]) :: rest).
      split.
      + subst s1; cbn [heap plot warnings]. by rewrite <- app_assoc.
      + exists y, rest. split_and!; [done | done |].
        rewrite (sift_down_below _ _ _ _ _ Hsift) by (unfold child in Hc; lia).
        subst s1; cbn [heap]. apply lookup_exchange_l; [|done].
        by eapply lookup_lt_Some. }
  split_and!.
  - exact Hsel.
  - intros Hc. apply compare_true in Hc as [Hle Hn]. split; [done|].
    intros ->. apply Hn, le_pol_refl.
  - exact Hrun.
  - intros <- Hlx.
    assert (swap_idx = 2 * index + 1) as Hleft.
    { subst swap_idx cand cand_val. rewrite Hlx.
      assert (_compare is_min l l = false) as ->
        by (apply compare_false_iff, le_pol_refl).
      done. }
    rewrite Hleft in Hsel.
    assert (swap_and_visualize index (2 * index + 1) s
            = Ok (tt, State (exchange (heap s) index (2 * index + 1) x l)
                    (plot s ++ [(exchange (heap s) index (2 * index + 1) x l,
                                 [index; 2 * index + 1])])
                    (warnings s))) as Hswap
      by (by apply swap_and_visualize_run).
    split_and!; [exact Hsel | exact Hswap | |].
    + intros fuel. cbn [heapify_down_loop]. unfold bind at 1. rewrite Hsel.
      assert (2 * index + 1 ≠ index) as Hne by lia.
      apply Nat.eqb_neq in Hne as ->. cbn [negb]. unfold bind.
      by rewrite Hswap.
    + intros fuel Hfuel.
      destruct (Hrun fuel Hfuel) as (h' & evs & Hdown & Hcase).
      rewrite Hleft in Hcase.
      destruct (decide (2 * index + 1 = index)) as [? | _]; [lia|].
      destruct Hcase as (y & rest & Hy & -> & Hidx).
      rewrite Hl in Hy. simplify_eq.
      by exists h', rest.
Qed.

Lemma sift_down_tie_break_witness :
  select_swap_idx true 3 0 (State [9; 4; 4]%Z [] []) = Ok (1, State [9; 4; 4]%Z [] []) ∧
  swap_and_visualize 0 1 (State [9; 4; 4]%Z [] [])
  = Ok (tt, State [4; 9; 4]%Z [([4; 9; 4]%Z, [0; 1])] []) ∧
  (∀ fuel,
     heapify_down_loop true (S fuel) 3 0 (State [9; 4; 4]%Z [] [])
     = heapify_down_loop true fuel 3 1
         (State [4; 9; 4]%Z [([4; 9; 4]%Z, [0; 1])] [])) ∧
  ∀ fuel, 3 < fuel →
    ∃ h' rest,
      _heapify_down true fuel 0 (State [9; 4; 4]%Z [] [])
      = Ok (tt, State h' ([] ++ ([4; 9; 4]%Z, [0; 1]) :: rest) []) ∧
      h' !! 0 = Some 4%Z.
Proof.
  apply (sift_down_tie_break true (State [9; 4; 4]%Z [] []) 0 9 4 4);
    reflexivity.
Defined.

(** C9 (indices in range): no method of the heap ever raises IndexError,
    on any heap and with any fuel: sift-down from any index, sift-up from
    any index of the heap, build, insert and delete-root. *)
Theorem index_in_bounds (is_min : bool) (fuel : nat) (s : state) :
  (∀ index, index < length (heap s) →
            _heapify_up is_min fuel index s ≠ IndexError) ∧
  (∀ index, _heapify_down is_min fuel index s ≠ IndexError) ∧
  (∀ arr, build_heap is_min fuel arr s ≠ IndexError) ∧
  (∀ val, insert is_min fuel val s ≠ IndexError) ∧
  delete_root is_min fuel s ≠ IndexError.
Proof.
  split_and!.
  - intros index Hi.
    apply (stable_no_index_error (λ fuel, _heapify_up is_min fuel index) s (S index));
      [apply heapify_up_stable|].
    intros fuel' Hf.
    destruct (heapify_up_run is_min fuel' index s) as (h' & evs & -> & _);
      [lia | by right | by eexists].
  - intros index.
    apply (stable_no_index_error (λ fuel, _heapify_down is_min fuel index) s
             (S (length (heap s)))); [apply heapify_down_stable|].
    intros fuel' Hf.
    destruct (heapify_down_run is_min fuel' index s) as (h' & evs & -> & _);
      [lia | by eexists].
  - intros arr.
    apply (stable_no_index_error (λ fuel, build_heap is_min fuel arr) s
             (S (length arr))); [apply build_heap_stable|].
    intros fuel' Hf.
    destruct (build_heap_run is_min fuel' arr s) as (h' & evs & -> & _);
      [lia | by eexists].
  - intros val.
    apply (stable_no_index_error (λ fuel, insert is_min fuel val) s
             (S (length (heap s)))); [apply insert_stable|].
    intros fuel' Hf.
    destruct (insert_run is_min fuel' val s) as (h' & evs & -> & _);
      [lia | by eexists].
  - apply (stable_no_index_error (λ fuel, delete_root is_min fuel) s
             (length (heap s))); [apply delete_root_stable|].
    intros fuel' Hf. destruct (heap s) as [|r t] eqn:E.
    + rewrite (delete_root_empty_run is_min fuel' s E). by eexists.
    + destruct (delete_root_run is_min fuel' r t s E) as (h' & evs & -> & _);
        [by rewrite E | by eexists].
Qed.

Lemma index_in_bounds_witness :
  _heapify_up true 1 2 (State [1; 5; 0]%Z [] []) ≠ IndexError ∧
  _heapify_down true 1 7 (State [1; 5; 0]%Z [] []) ≠ IndexError ∧
  delete_root false 0 (State [1; 5; 0]%Z [] []) ≠ IndexError.
Proof.
  split_and!.
  - apply (index_in_bounds true 1 (State [1; 5; 0]%Z [] [])). simpl; lia.
  - apply (index_in_bounds true 1 (State [1; 5; 0]%Z [] [])).
  - apply (index_in_bounds false 0 (State [1; 5; 0]%Z [] [])).
Defined.

(** C10 (termination): the parent index is below the index, and the index
    chosen by a pass of sift-down is the index itself or a larger one below
    the length; so sift-up from an index of the heap ends within index+1
    guard evaluations, sift-down within length-index+1 passes, and build,
    insert and delete-root end with a result once the fuel exceeds the
    length of the array; a result obtained with some fuel is the result with
    any larger fuel. *)
Theorem sift_loops_terminate (is_min : bool) (s : state) :
  (∀ index, 0 < index → (index - 1) / 2 < index) ∧
  (∀ index, ∃ m, select_swap_idx is_min (length (heap s)) index s = Ok (m, s) ∧
                 (m = index ∨ index < m < length (heap s))) ∧
  (∀ fuel index, index < fuel → index < length (heap s) →
     ∃ s', _heapify_up is_min fuel index s = Ok (tt, s')) ∧
  (∀ fuel index, length (heap s) - index < fuel →
     ∃ s', _heapify_down is_min fuel index s = Ok (tt, s')) ∧
  (∀ fuel arr, length arr < fuel →
     ∃ s', build_heap is_min fuel arr s = Ok (tt, s')) ∧
  (∀ fuel val, length (heap s) < fuel →
     ∃ s', insert is_min fuel val s = Ok (tt, s')) ∧
  (∀ fuel, length (heap s) ≤ fuel →
     ∃ r s', delete_root is_min fuel s = Ok (r, s')) ∧
  (∀ index, fuel_stable (λ fuel, _heapify_up is_min fuel index)) ∧
  (∀ index, fuel_stable (λ fuel, _heapify_down is_min fuel index)) ∧
  (∀ arr, fuel_stable (λ fuel, build_heap is_min fuel arr)) ∧
  (∀ val, fuel_stable (λ fuel, insert is_min fuel val)) ∧
  fuel_stable (λ fuel, delete_root is_min fuel).
Proof.
  split_and!.
  - intros index Hpos. pose proof (div2_child index Hpos) as Hc.
    unfold child in Hc; lia.
  - intros index.
    destruct (select_swap_idx_run is_min index s)
      as (m & Hsel & [[-> _] | (x & y & Hc & _ & Hy & _)]).
    + exists index. by split; [|left].
    + exists m. split; [done|]. right.
      apply lookup_lt_Some in Hy. unfold child in Hc; lia.
  - intros fuel index Hf Hi.
    destruct (heapify_up_run is_min fuel index s) as (h' & evs & -> & _);
      [done | by right | by eexists].
  - intros fuel index Hf. unfold _heapify_down, bind, len.
    destruct (heapify_down_loop_run is_min fuel index s) as (h' & evs & -> & _);
      [lia | lia | by eexists].
  - intros fuel arr Hf.
    destruct (build_heap_run is_min fuel arr s Hf) as (h' & evs & -> & _).
    by eexists.
  - intros fuel val Hf.
    destruct (insert_run is_min fuel val s Hf) as (h' & evs & -> & _).
    by eexists.
  - intros fuel Hf. destruct (heap s) as [|r t] eqn:E.
    + rewrite (delete_root_empty_run is_min fuel s E). by eexists _, _.
    + destruct (delete_root_run is_min fuel r t s E) as (h' & evs & -> & _);
        [by rewrite E | by eexists _, _].
  - intros index. apply heapify_up_stable.
  - intros index. apply heapify_down_stable.
  - intros arr. apply build_heap_stable.
  - intros val. apply insert_stable.
  - apply delete_root_stable.
Qed.

Lemma sift_loops_terminate_witness :
  (∃ s', _heapify_up false 3 2 (State [7; 5; 9]%Z [] []) = Ok (tt, s')) ∧
  (∃ s', _heapify_down false 3 1 (State [7; 5; 9]%Z [] []) = Ok (tt, s')) ∧
  (∃ s', build_heap false 5 [1; 2; 3; 4]%Z (State [7; 5; 9]%Z [] []) = Ok (tt, s')) ∧
  (∃ s', insert false 4 8%Z (State [7; 5; 9]%Z [] []) = Ok (tt, s')) ∧
  (∃ r s', delete_root false 3 (State [7; 5; 9]%Z [] []) = Ok (r, s')).
Proof.
  destruct (sift_loops_terminate false (State [7; 5; 9]%Z [] []))
    as (_ & _ & Hup & Hdown & Hbuild & Hinsert & Hdelete & _).
  split_and!.
  - apply Hup; simpl; lia.
  - apply Hdown; simpl; lia.
  - apply Hbuild; simpl; lia.
  - apply Hinsert; simpl; lia.
  - apply Hdelete; simpl; lia.
Defined.

(** ** Further properties of the heap class *)

Lemma sift_up_frames is_min i h h' evs :
  sift_up is_min i h h' evs → frames_follow (λ c p, child p c) h evs h'.
Proof.
  induction 1 as [| |i x y h h' evs Hpos Hx Hy _ _ IH]; [constructor..|].
  econstructor; [done | done | by apply div2_child | done].
Qed.

Lemma sift_down_frames is_min i h h' evs :
  sift_down is_min i h h' evs → frames_follow child h evs h'.
Proof.
  induction 1 as [|i m x y h h' evs Hc Hx Hy _ _ _ IH]; [constructor|].
  by econstructor.
Qed.

Lemma frames_follow_app R h1 h2 h3 e1 e2 :
  frames_follow R h1 e1 h2 → frames_follow R h2 e2 h3 →
  frames_follow R h1 (e1 ++ e2) h3.
Proof.
  induction 1 as [|h i j a b evs h' Hi Hj HR _ IH]; [done|].
  intros H2. cbn [app]. econstructor; [done..|]. by apply IH.
Qed.

Lemma sift_all_frames is_min l h h' evs :
  sift_all is_min l h h' evs → frames_follow child h evs h'.
Proof.
  induction 1 as [|i l h h1 h' e1 e2 Hs _ IH]; [constructor|].
  eapply frames_follow_app; [by eapply sift_down_frames | done].
Qed.

Lemma sift_up_frame_count is_min i h h' evs :
  sift_up is_min i h h' evs → 2 ^ length evs ≤ i + 1.
Proof.
  induction 1 as [| |i x y h h' evs Hpos _ _ _ _ IH]; cbn [length]; [cbn; lia..|].
  rewrite Nat.pow_succ_r'.
  pose proof (Nat.div_mod_eq (i - 1) 2). pose proof (Nat.mod_upper_bound (i - 1) 2).
  lia.
Qed.

Lemma sift_down_frame_count is_min i h h' evs :
  sift_down is_min i h h' evs →
  evs = [] ∨ (i + 1) * 2 ^ length evs ≤ length h.
Proof.
  induction 1 as [|i m x y h h' evs Hc _ Hy _ _ _ IH]; [by left|].
  right. cbn [length]. rewrite Nat.pow_succ_r'.
  apply lookup_lt_Some in Hy. rewrite length_exchange in IH.
  assert (2 * (i + 1) ≤ m + 1) as Hm by child_lia.
  destruct IH as [-> | IH]; [cbn; lia|].
  etrans; [|exact IH].
  rewrite Nat.mul_assoc. apply Nat.mul_le_mono_r. lia.
Qed.

Lemma frames_follow_last R h evs h' :
  frames_follow R h evs h' → ∀ f, list.last evs = Some f → f.1 = h'.
Proof.
  induction 1 as [|h i j a b evs h' _ _ _ Hrest IH]; intros f Hf; [done|].
  destruct evs as [|e evs].
  - inversion Hrest; subst. by simplify_eq/=.
  - rewrite last_cons_cons in Hf. by apply IH.
Qed.

Lemma sift_up_above is_min i h h' evs :
  sift_up is_min i h h' evs → ∀ j, i < j → h' !! j = h !! j.
Proof.
  induction 1 as [| |i x y h h' evs Hpos _ _ _ _ IH]; intros j Hj; [done..|].
  pose proof (div2_child i Hpos) as Hc.
  rewrite IH by child_lia. apply lookup_exchange_ne; child_lia.
Qed.

(** X1: on a heap in heap order, delete-root returns the value that comes
    first under the polarity: an element of the heap that is at most (MIN)
    or at least (MAX) every element. *)
Theorem delete_root_returns_extremum (is_min : bool) (fuel : nat) (s : state) :
  heap_ordered is_min (heap s) →
  heap s ≠ [] →
  length (heap s) ≤ fuel →
  ∃ root s',
    delete_root is_min fuel s = Ok (Some root, s') ∧
    root ∈ heap s ∧
    ∀ x, x ∈ heap s → if is_min then (root <= x)%Z else (root >= x)%Z.
Proof.
  intros Hord Hne Hfuel. destruct (heap s) as [|r t] eqn:E; [done|].
  destruct (delete_root_spec is_min fuel r t s E) as (h' & evs & Hrun & _);
    [by rewrite E|].
  eexists r, _. split_and!; [exact Hrun | by left |].
  intros x [i Hi]%list_elem_of_lookup.
  by apply (root_minimal is_min (r :: t) r Hord eq_refl i x).
Qed.

Lemma delete_root_returns_extremum_witness :
  ∃ root s',
    delete_root false 3 (State [9; 4; 7]%Z [] []) = Ok (Some root, s') ∧
    root ∈ [9; 4; 7]%Z ∧
    ∀ x, x ∈ [9; 4; 7]%Z → (root >= x)%Z.
Proof.
  apply (delete_root_returns_extremum false 3 (State [9; 4; 7]%Z [] [])).
  - apply heap_orderedb_sound. reflexivity.
  - discriminate.
  - simpl; lia.
Defined.

(** X2: after build on a non-empty input, the root of the heap is an element
    of the input that comes first under the polarity: the minimum of the
    input for MIN, the maximum for MAX. *)
Theorem build_heap_root_extremum (is_min : bool) (fuel : nat) (arr : list Z) (s : state) :
  arr ≠ [] →
  length arr < fuel →
  ∃ root s',
    build_heap is_min fuel arr s = Ok (tt, s') ∧
    heap s' !! 0 = Some root ∧
    root ∈ arr ∧
    ∀ x, x ∈ arr → if is_min then (root <= x)%Z else (root >= x)%Z.
Proof.
  intros Hne Hfuel.
  destruct (build_heap_spec is_min fuel arr s Hfuel) as (h' & evs & Hrun & Hp & Hord).
  destruct h' as [|r h'].
  { apply Permutation_nil_l in Hp. by subst. }
  eexists r, _. split_and!; [exact Hrun | done | |].
  - rewrite <- Hp. by left.
  - intros x Hx. rewrite <- Hp in Hx.
    apply list_elem_of_lookup in Hx as [i Hi].
    by apply (root_minimal is_min (r :: h') r Hord eq_refl i x).
Qed.

Lemma build_heap_root_extremum_witness :
  ∃ root s',
    build_heap true 4 [5; 1; 9]%Z init = Ok (tt, s') ∧
    heap s' !! 0 = Some root ∧
    root ∈ [5; 1; 9]%Z ∧
    ∀ x, x ∈ [5; 1; 9]%Z → (root <= x)%Z.
Proof.
  apply (build_heap_root_extremum true 4 [5; 1; 9]%Z init).
  - discriminate.
  - simpl; lia.
Defined.

(** X3: inserting into a heap in heap order puts at the root the inserted
    value when it strictly precedes the old root (or the heap was empty),
    and keeps the old root otherwise. *)
Theorem insert_root (is_min : bool) (fuel : nat) (val : Z) (s : state) :
  heap_ordered is_min (heap s) →
  length (heap s) < fuel →
  ∃ s',
    insert is_min fuel val s = Ok (tt, s') ∧
    heap s' !! 0 = Some (match heap s !! 0 with
                         | Some root => if _compare is_min val root then val else root
                         | None => val
                         end).
Proof.
  intros Hord Hfuel.
  destruct (insert_spec is_min fuel val s Hfuel) as (h' & evs & Hrun & Hp & Hord').
  specialize (Hord' Hord).
  eexists. split; [exact Hrun|]. cbn [heap].
  destruct h' as [|r' h'].
  { by apply Permutation_nil_l in Hp. }
  cbn [lookup list_lookup]. f_equal.
  assert (∀ x, x ∈ val :: heap s → le_pol is_min r' x) as Hmin.
  { intros x Hx. rewrite <- Hp in Hx. apply list_elem_of_lookup in Hx as [i Hi].
    by apply (root_minimal is_min (r' :: h') r' Hord' eq_refl i x). }
  assert (r' ∈ val :: heap s) as Hin by (rewrite <- Hp; by left).
  pose proof (Hmin val ltac:(by left)) as Hv.
  destruct (heap s) as [|r t] eqn:E.
  - cbn [lookup list_lookup]. apply list_elem_of_singleton in Hin. done.
  - cbn [lookup list_lookup].
    pose proof (Hmin r ltac:(right; by left)) as Hr.
    assert (r' = val ∨ le_pol is_min r r') as Hcase.
    { apply elem_of_cons in Hin as [-> | Hin]; [by left|]. right.
      apply list_elem_of_lookup in Hin as [i Hi].
      by apply (root_minimal is_min (r :: t) r Hord eq_refl i r'). }
    unfold _compare, le_pol in *. destruct is_min.
    + destruct (Z.ltb_spec val r); destruct Hcase; lia.
    + rewrite Z.gtb_ltb. destruct (Z.ltb_spec r val); destruct Hcase; lia.
Qed.

Lemma insert_root_witness :
  ∃ s',
    insert false 4 20%Z (State [9; 1; 5]%Z [] []) = Ok (tt, s') ∧
    heap s' !! 0 = Some 20%Z.
Proof.
  apply (insert_root false 4 20%Z (State [9; 1; 5]%Z [] [])).
  - apply heap_orderedb_sound. reflexivity.
  - simpl; lia.
Defined.

(** X4: the frames insert draws form an animation of the sift-up: starting
    from the array with the value appended, each frame shows the array after
    exchanging the first highlighted index with its parent, the second
    highlighted index; the last frame, if any, shows the final heap. *)
Theorem insert_animation (is_min : bool) (fuel : nat) (val : Z) (s : state) :
  length (heap s) < fuel →
  ∃ s' evs,
    insert is_min fuel val s = Ok (tt, s') ∧
    plot s' = plot s ++ evs ∧
    frames_follow (λ c p, child p c) (heap s ++ [val]) evs (heap s') ∧
    ∀ f, list.last evs = Some f → f.1 = heap s'.
Proof.
  intros Hfuel.
  destruct (insert_run is_min fuel val s Hfuel) as (h' & evs & Hrun & Hup).
  eexists _, evs. split; [exact Hrun|]. cbn [heap plot].
  apply sift_up_frames in Hup. split_and!; [done | done |].
  by eapply frames_follow_last.
Qed.

Lemma insert_animation_witness :
  ∃ s' evs,
    insert true 4 0%Z (State [1; 5; 2]%Z [] []) = Ok (tt, s') ∧
    plot s' = [] ++ evs ∧
    frames_follow (λ c p, child p c) ([1; 5; 2]%Z ++ [0%Z]) evs (heap s') ∧
    ∀ f, list.last evs = Some f → f.1 = heap s'.
Proof.
  apply (insert_animation true 4 0%Z (State [1; 5; 2]%Z [] [])). simpl; lia.
Defined.

(** X5: delete-root on a one-element heap draws nothing and leaves the heap
    empty; on a longer heap its frames animate the sift-down: starting from
    the array with the last value moved to the root, each frame shows the
    array after exchanging the first highlighted index with its child, the
    second highlighted index, and the last frame shows the final heap. *)
Theorem delete_root_animation (is_min : bool) (fuel : nat) (root : Z) (rest : list Z)
    (s : state) :
  heap s = root :: rest →
  length (heap s) ≤ fuel →
  ∃ s' evs,
    delete_root is_min fuel s = Ok (Some root, s') ∧
    plot s' = plot s ++ evs ∧
    match list.last rest with
    | None => heap s' = [] ∧ evs = []
    | Some last_val =>
        frames_follow child (last_val :: removelast rest) evs (heap s') ∧
        ∀ f, list.last evs = Some f → f.1 = heap s'
    end.
Proof.
  intros E Hfuel.
  destruct (delete_root_run is_min fuel root rest s E Hfuel)
    as (h' & evs & Hrun & [(-> & -> & ->) | (l & t' & -> & Hs)]);
    eexists _, _; (split; [exact Hrun|]); cbn [heap plot]; (split; [done|]).
  - done.
  - rewrite last_snoc, removelast_last.
    apply sift_down_frames in Hs. split; [done|].
    by eapply frames_follow_last.
Qed.

Lemma delete_root_animation_witness :
  ∃ s' evs,
    delete_root true 4 (State [1; 5; 2; 7]%Z [] []) = Ok (Some 1%Z, s') ∧
    plot s' = [] ++ evs ∧
    frames_follow child [7; 5; 2]%Z evs (heap s') ∧
    ∀ f, list.last evs = Some f → f.1 = heap s'.
Proof.
  apply (delete_root_animation true 4 1%Z [5; 2; 7]%Z (State [1; 5; 2; 7]%Z [] []));
    [reflexivity | simpl; lia].
Defined.

(** X6: build first draws the input as given, with no highlight, and then
    frames that animate the sift-downs: each shows the array after exchanging
    the first highlighted index with its child, the second highlighted
    index; the last frame drawn shows the final heap. *)
Theorem build_heap_animation (is_min : bool) (fuel : nat) (arr : list Z) (s : state) :
  length arr < fuel →
  ∃ s' evs,
    build_heap is_min fuel arr s = Ok (tt, s') ∧
    plot s' = plot s ++ (arr, []) :: evs ∧
    frames_follow child arr evs (heap s') ∧
    ∀ f, list.last ((arr, []) :: evs) = Some f → f.1 = heap s'.
Proof.
  intros Hfuel.
  destruct (build_heap_run is_min fuel arr s Hfuel) as (h' & evs & Hrun & Hall).
  eexists _, evs. split; [exact Hrun|]. cbn [heap plot].
  apply sift_all_frames in Hall. split_and!; [done | done |].
  intros f Hf. destruct evs as [|e evs].
  - inversion Hall; subst. by simplify_eq/=.
  - rewrite last_cons_cons in Hf. by eapply frames_follow_last.
Qed.

Lemma build_heap_animation_witness :
  ∃ s' evs,
    build_heap false 4 [1; 5; 9]%Z init = Ok (tt, s') ∧
    plot s' = plot init ++ ([1; 5; 9]%Z, []) :: evs ∧
    frames_follow child [1; 5; 9]%Z evs (heap s') ∧
    ∀ f, list.last (([1; 5; 9]%Z, []) :: evs) = Some f → f.1 = heap s'.
Proof. apply (build_heap_animation false 4 [1; 5; 9]%Z init). simpl; lia. Defined.

(** X7: insert into a heap of n values draws k frames with 2^k <= n + 1:
    at most log2 (n + 1) exchanges. *)
Theorem insert_frame_count (is_min : bool) (fuel : nat) (val : Z) (s : state) :
  length (heap s) < fuel →
  ∃ s' evs,
    insert is_min fuel val s = Ok (tt, s') ∧
    plot s' = plot s ++ evs ∧
    2 ^ length evs ≤ length (heap s) + 1.
Proof.
  intros Hfuel.
  destruct (insert_run is_min fuel val s Hfuel) as (h' & evs & Hrun & Hup).
  eexists _, evs. split; [exact Hrun|]. cbn [plot]. split; [done|].
  by eapply sift_up_frame_count.
Qed.

Lemma insert_frame_count_witness :
  ∃ s' evs,
    insert true 5 0%Z (State [1; 5; 2; 7]%Z [] []) = Ok (tt, s') ∧
    plot s' = [] ++ evs ∧
    2 ^ length evs ≤ 4 + 1.
Proof.
  apply (insert_frame_count true 5 0%Z (State [1; 5; 2; 7]%Z [] [])). simpl; lia.
Defined.

(** X8: delete-root on a heap of n >= 1 values draws k frames with
    2^k <= n: at most log2 n exchanges. *)
Theorem delete_root_frame_count (is_min : bool) (fuel : nat) (s : state) :
  heap s ≠ [] →
  length (heap s) ≤ fuel →
  ∃ root s' evs,
    delete_root is_min fuel s = Ok (Some root, s') ∧
    plot s' = plot s ++ evs ∧
    2 ^ length evs ≤ length (heap s).
Proof.
  intros Hne Hfuel. destruct (heap s) as [|r t] eqn:E; [done|].
  destruct (delete_root_run is_min fuel r t s E) as (h' & evs & Hrun & Hcase);
    [by rewrite E|].
  eexists r, _, evs. split; [exact Hrun|]. cbn [plot]. split; [done|].
  destruct Hcase as [(-> & -> & ->) | (l & t' & -> & Hs)]; [cbn; lia|].
  apply sift_down_frame_count in Hs as [-> | Hs]; [cbn; lia|].
  cbn [length] in *. rewrite length_app. cbn [length]. lia.
Qed.

Lemma delete_root_frame_count_witness :
  ∃ root s' evs,
    delete_root true 4 (State [1; 5; 2; 7]%Z [] []) = Ok (Some root, s') ∧
    plot s' = [] ++ evs ∧
    2 ^ length evs ≤ 4.
Proof.
  apply (delete_root_frame_count true 4 (State [1; 5; 2; 7]%Z [] []));
    [discriminate | simpl; lia].
Defined.




Lemma py_index_in_range n i :
  (- Z.of_nat n <= i < Z.of_nat n)%Z →
  ∃ k, py_index n i = Some k ∧ k < n ∧
       Z.of_nat k = (if (i <? 0)%Z then i + Z.of_nat n else i)%Z.
Proof.
  intros Hi. unfold py_index.
  destruct (Z.ltb_spec i 0).
  - destruct (Z.ltb_spec (i + Z.of_nat n) 0); [lia|].
    eexists. split; [reflexivity|]. lia.
  - destruct (Z.ltb_spec i (Z.of_nat n)); [|lia].
    eexists. split; [reflexivity|]. lia.
Qed.

Lemma py_index_out_of_range n i :
  ¬ (- Z.of_nat n <= i < Z.of_nat n)%Z → py_index n i = None.
Proof.
  intros Hi. unfold py_index.
  destruct (Z.ltb_spec i 0).
  - destruct (Z.ltb_spec (i + Z.of_nat n) 0); [done | lia].
  - destruct (Z.ltb_spec i (Z.of_nat n)); [lia | done].
Qed.

Lemma py_index_of_nat n (i : nat) :
  py_index n (Z.of_nat i) = if i <? n then Some i else None.
Proof.
  unfold py_index. destruct (Z.ltb_spec (Z.of_nat i) 0); [lia|].
  destruct (Z.ltb_spec (Z.of_nat i) (Z.of_nat n)), (Nat.ltb_spec i n);
    try lia; [|done].
  by rewrite Nat2Z.id.
Qed.

Lemma get_item_int_of_nat (i : nat) s :
  get_item_int (Z.of_nat i) s = get_item i s.
Proof.
  unfold get_item_int. rewrite py_index_of_nat.
  destruct (Nat.ltb_spec i (length (heap s))) as [H | H]; [done|].
  unfold get_item. by rewrite (lookup_ge_None_2 (heap s) i H).
Qed.

Lemma set_item_int_of_nat (i : nat) v s :
  set_item_int (Z.of_nat i) v s = set_item i v s.
Proof.
  unfold set_item_int. rewrite py_index_of_nat.
  destruct (Nat.ltb_spec i (length (heap s))) as [H | H]; [done|].
  unfold set_item. by apply Nat.ltb_ge in H as ->.
Qed.

(** X10: swap_and_visualize on any two Python integers succeeds exactly when
    both are list indices of the heap, -len <= i < len and -len <= j < len
    (a negative index counts from the end), and raises IndexError otherwise.
    When it succeeds the two positions denoted have exchanged their values,
    every other position and the length are unchanged, and exactly one frame
    of the new array is drawn.  On natural-number indices, the only ones the
    class passes, it is the method as embedded for the class. *)
Theorem swap_and_visualize_bounds (i j : Z) (s : state) :
  (if bool_decide ((- Z.of_nat (length (heap s)) <= i < Z.of_nat (length (heap s)))%Z ∧
                   (- Z.of_nat (length (heap s)) <= j < Z.of_nat (length (heap s)))%Z)
   then
     ∃ pi pj h',
       py_index (length (heap s)) i = Some pi ∧
       py_index (length (heap s)) j = Some pj ∧
       Z.of_nat pi = (if (i <? 0)%Z then i + Z.of_nat (length (heap s)) else i)%Z ∧
       Z.of_nat pj = (if (j <? 0)%Z then j + Z.of_nat (length (heap s)) else j)%Z ∧
       swap_and_visualize_int i j s
       = Ok (tt, State h' (plot s ++ [(h', highlight_members [i; j])]) (warnings s)) ∧
       length h' = length (heap s) ∧
       h' !! pi = heap s !! pj ∧
       h' !! pj = heap s !! pi ∧
       ∀ k, k ≠ pi → k ≠ pj → h' !! k = heap s !! k
   else swap_and_visualize_int i j s = IndexError) ∧
  ∀ a b : nat,
    swap_and_visualize_int (Z.of_nat a) (Z.of_nat b) s = swap_and_visualize a b s.
Proof.
  split.
  - case_bool_decide as Hb.
    + destruct Hb as [Hi Hj].
      destruct (py_index_in_range _ _ Hi) as (pi & Epi & Hpi & Zpi).
      destruct (py_index_in_range _ _ Hj) as (pj & Epj & Hpj & Zpj).
      destruct (lookup_lt_is_Some_2 (heap s) pi Hpi) as [a Ha].
      destruct (lookup_lt_is_Some_2 (heap s) pj Hpj) as [b Hb].
      exists pi, pj, (exchange (heap s) pi pj a b).
      split_and!; [done | done | done | done | | | | |].
      * unfold swap_and_visualize_int.
        unfold bind at 1, get_item_int at 1, get_item. rewrite Epj, Hb.
        unfold bind at 1, get_item_int at 1, get_item. rewrite Epi, Ha.
        unfold bind at 1, set_item_int at 1, set_item. rewrite Epi.
        apply Nat.ltb_lt in Hpi as ->. unfold set_heap.
        unfold bind at 1, set_item_int at 1, set_item. cbn [heap plot warnings].
        rewrite length_insert, Epj. apply Nat.ltb_lt in Hpj as ->.
        reflexivity.
      * apply length_exchange.
      * rewrite Hb. destruct (decide (pi = pj)) as [-> | Hne].
        -- rewrite lookup_exchange_r by done. congruence.
        -- by apply lookup_exchange_l.
      * rewrite Ha. by apply lookup_exchange_r.
      * intros k Hki Hkj. by apply lookup_exchange_ne.
    + unfold swap_and_visualize_int.
      unfold bind at 1, get_item_int at 1.
      destruct (decide (- Z.of_nat (length (heap s)) <= j < Z.of_nat (length (heap s)))%Z)
        as [Hj | Hj]; [|by rewrite (py_index_out_of_range _ _ Hj)].
      destruct (py_index_in_range _ _ Hj) as (pj & -> & Hpj & _).
      destruct (lookup_lt_is_Some_2 (heap s) pj Hpj) as [b Hb'].
      unfold get_item. rewrite Hb'.
      unfold bind at 1, get_item_int at 1.
      rewrite py_index_out_of_range; [done|]. intros Hi. by apply Hb.
  - intros a b. unfold swap_and_visualize_int, swap_and_visualize.
    unfold bind at 1 5. rewrite get_item_int_of_nat.
    destruct (get_item b s) as [[vj s1]| |]; [|done..].
    unfold bind at 1 4. rewrite get_item_int_of_nat.
    destruct (get_item a s1) as [[vi s2]| |]; [|done..].
    unfold bind at 1 3. rewrite set_item_int_of_nat.
    destruct (set_item a vj s2) as [[[] s3]| |]; [|done..].
    unfold bind. rewrite set_item_int_of_nat.
    destruct (set_item b vi s3) as [[[] s4]| |]; [|done..].
    unfold highlight_members. cbn [omap list_omap].
    destruct (Z.ltb_spec (Z.of_nat a) 0); [lia|].
    destruct (Z.ltb_spec (Z.of_nat b) 0); [lia|].
    by rewrite !Nat2Z.id.
Qed.

Lemma swap_and_visualize_bounds_witness :
  (∃ pi pj h',
     py_index 3 (-1) = Some pi ∧
     py_index 3 0 = Some pj ∧
     Z.of_nat pi = (-1 + 3)%Z ∧
     Z.of_nat pj = 0%Z ∧
     swap_and_visualize_int (-1) 0 (State [4; 5; 6]%Z [] [])
     = Ok (tt, State h' ([] ++ [(h', [0])]) []) ∧
     length h' = 3 ∧
     h' !! pi = [4; 5; 6]%Z !! pj ∧
     h' !! pj = [4; 5; 6]%Z !! pi ∧
     ∀ k, k ≠ pi → k ≠ pj → h' !! k = [4; 5; 6]%Z !! k) ∧
  swap_and_visualize_int 0 3 (State [4; 5; 6]%Z [] []) = IndexError ∧
  swap_and_visualize_int (-4) 0 (State [4; 5; 6]%Z [] []) = IndexError.
Proof.
  split_and!.
  - apply (swap_and_visualize_bounds (-1) 0 (State [4; 5; 6]%Z [] [])).
  - apply (swap_and_visualize_bounds 0 3 (State [4; 5; 6]%Z [] [])).
  - apply (swap_and_visualize_bounds (-4) 0 (State [4; 5; 6]%Z [] [])).
Defined.

(** X11: sift-up does not check its start index: from a positive index that
    is not an index of the heap it raises IndexError (with any fuel left). *)
Theorem heapify_up_out_of_range (is_min : bool) (fuel index : nat) (s : state) :
  0 < index →
  length (heap s) ≤ index →
  _heapify_up is_min (S fuel) index s = IndexError.
Proof.
  intros Hpos Hlen. cbn [_heapify_up].
  apply Nat.ltb_lt in Hpos as ->. unfold bind, get_item.
  by rewrite (lookup_ge_None_2 (heap s) index Hlen).
Qed.

Lemma heapify_up_out_of_range_witness :
  _heapify_up true (S 0) 3 (State [1; 5; 2]%Z [] []) = IndexError.
Proof.
  apply (heapify_up_out_of_range true 0 3 (State [1; 5; 2]%Z [] [])); simpl; lia.
Defined.

(** X12: sift-down from an index without children in the heap (a leaf, or
    an index past the end) changes nothing, draws nothing and needs a single
    pass; this is why build may start at len // 2 - 1. *)
Theorem heapify_down_leaf (is_min : bool) (fuel index : nat) (s : state) :
  length (heap s) ≤ 2 * index + 1 →
  _heapify_down is_min (S fuel) index s = Ok (tt, s).
Proof.
  intros Hleaf. unfold _heapify_down, bind at 1, len.
  cbn [heapify_down_loop]. unfold bind at 1.
  destruct (select_swap_idx_run is_min index s)
    as (m & -> & [[-> _] | (x & y & Hc & _ & Hy & _)]).
  - by rewrite Nat.eqb_refl.
  - apply lookup_lt_Some in Hy. child_lia.
Qed.

Lemma heapify_down_leaf_witness :
  _heapify_down true (S 0) 2 (State [9; 5; 2; 7]%Z [] [])
  = Ok (tt, State [9; 5; 2; 7]%Z [] []).
Proof.
  apply (heapify_down_leaf true 0 2 (State [9; 5; 2; 7]%Z [] [])). simpl; lia.
Defined.

(** X13: the sift loops are local: sift-down from an index leaves every
    smaller index of the array as it was, and sift-up from an index of the
    heap leaves every larger index as it was; both keep the length. *)
Theorem sift_locality (is_min : bool) (fuel index : nat) (s : state) :
  length (heap s) < fuel →
  (∃ s', _heapify_down is_min fuel index s = Ok (tt, s') ∧
         length (heap s') = length (heap s) ∧
         ∀ j, j < index → heap s' !! j = heap s !! j) ∧
  (index < length (heap s) →
   ∃ s', _heapify_up is_min fuel index s = Ok (tt, s') ∧
         length (heap s') = length (heap s) ∧
         ∀ j, index < j → heap s' !! j = heap s !! j).
Proof.
  intros Hfuel. split.
  - destruct (heapify_down_run is_min fuel index s Hfuel) as (h' & evs & Hrun & Hs).
    eexists. split; [exact Hrun|]. cbn [heap].
    split; [by eapply sift_down_length | by eapply sift_down_below].
  - intros Hi.
    destruct (heapify_up_run is_min fuel index s) as (h' & evs & Hrun & Hs);
      [lia | by right |].
    eexists. split; [exact Hrun|]. cbn [heap].
    split; [by eapply sift_up_length | by eapply sift_up_above].
Qed.

Lemma sift_locality_witness :
  (∃ s', _heapify_down true 5 1 (State [1; 9; 2; 7]%Z [] []) = Ok (tt, s') ∧
         length (heap s') = 4 ∧
         ∀ j, j < 1 → heap s' !! j = [1; 9; 2; 7]%Z !! j) ∧
  (∃ s', _heapify_up true 5 3 (State [1; 9; 2; 7]%Z [] []) = Ok (tt, s') ∧
         length (heap s') = 4 ∧
         ∀ j, 3 < j → heap s' !! j = [1; 9; 2; 7]%Z !! j).
Proof.
  destruct (sift_locality true 5 1 (State [1; 9; 2; 7]%Z [] [])) as [Hd _];
    [simpl; lia|].
  destruct (sift_locality true 5 3 (State [1; 9; 2; 7]%Z [] [])) as [_ Hu];
    [simpl; lia|].
  split; [exact Hd | apply Hu; simpl; lia].
Defined.

(** ** Properties of the drawing *)

Lemma omap_concat {A B} (f : A → option B) (ls : list (list A)) :
  omap f (concat ls) = concat (omap (M:=list) f <$> ls).
Proof.
  induction ls as [|l ls IH]; [done|].
  cbn [concat fmap list_fmap]. by rewrite omap_app, IH.
Qed.

Lemma edges_of_draw_item heap hl i val :
  edges_of (draw_item heap hl i val) = item_edges (length heap) i.
Proof.
  unfold draw_item, item_edges, edges_of.
  destruct (bool_decide (i ∈ hl)); cbv zeta;
    destruct (2 * i + 1 <? length heap), (2 * i + 2 <? length heap); reflexivity.
Qed.

Lemma nodes_of_draw_item heap hl i val :
  nodes_of (draw_item heap hl i val)
  = [(pretty i, pretty val,
      if bool_decide (i ∈ hl)
      then node_attrs "#FF4B4B" "white"
      else node_attrs "white" "black")].
Proof.
  unfold draw_item, nodes_of.
  destruct (bool_decide (i ∈ hl)); cbv zeta;
    destruct (2 * i + 1 <? length heap), (2 * i + 2 <? length heap); reflexivity.
Qed.

Lemma seq_1_snoc m : seq 1 (m + 1) = seq 1 m ++ [m + 1].
Proof. rewrite Nat.add_1_r, seq_S. do 2 f_equal; lia. Qed.

Lemma seq_1_snoc2 m : seq 1 (m + 2) = seq 1 m ++ [m + 1; m + 2].
Proof.
  replace (m + 2) with (m + 1 + 1) at 1 by lia.
  rewrite seq_1_snoc, seq_1_snoc, <- app_assoc. cbn [app]. do 3 f_equal; lia.
Qed.

Lemma item_edges_prefix n k :
  concat (item_edges n <$> seq 0 k)
  = (λ c, (pretty ((c - 1) / 2), pretty c)) <$> seq 1 (Nat.min (2 * k) (n - 1)).
Proof.
  induction k as [|k IH]; [done|].
  rewrite seq_S, fmap_app, concat_app, IH. cbn [fmap list_fmap concat Nat.add].
  rewrite app_nil_r. unfold item_edges.
  destruct (Nat.ltb_spec (2 * k + 1) n) as [H1 | H1];
    destruct (Nat.ltb_spec (2 * k + 2) n) as [H2 | H2]; try lia.
  - replace (Nat.min (2 * S k) (n - 1)) with (2 * k + 2) by lia.
    replace (Nat.min (2 * k) (n - 1)) with (2 * k) by lia.
    rewrite seq_1_snoc2, fmap_app. cbn [fmap list_fmap app].
    assert ((2 * k + 1 - 1) / 2 = k) as -> by (apply child_parent; by left).
    by assert ((2 * k + 2 - 1) / 2 = k) as -> by (apply child_parent; by right).
  - replace (Nat.min (2 * S k) (n - 1)) with (2 * k + 1) by lia.
    replace (Nat.min (2 * k) (n - 1)) with (2 * k) by lia.
    rewrite seq_1_snoc, fmap_app. cbn [fmap list_fmap app].
    by assert ((2 * k + 1 - 1) / 2 = k) as -> by (apply child_parent; by left).
  - replace (Nat.min (2 * S k) (n - 1)) with (n - 1) by lia.
    replace (Nat.min (2 * k) (n - 1)) with (n - 1) by lia.
    by rewrite app_nil_r.
Qed.

Lemma edges_of_draw_heap_tree heap hl :
  edges_of (draw_heap_tree heap hl)
  = (λ c, (pretty ((c - 1) / 2), pretty c)) <$> seq 1 (length heap - 1).
Proof.
  unfold draw_heap_tree. cbv zeta. set (hl' := match hl with Some (x :: l) => x :: l | _ => [] end).
  change (edges_of (attr_stmt ?a :: ?d)) with (edges_of d).
  unfold edges_of at 1. rewrite omap_concat. fold edges_of.
  rewrite fmap_imap.
  rewrite (imap_ext _ (λ i _, item_edges (length heap) i))
    by (intros i x _; apply edges_of_draw_item).
  rewrite imap_seq_0, item_edges_prefix. do 2 f_equal. lia.
Qed.

Lemma concat_imap_singleton {A B} (g : nat → A → B) (l : list A) :
  concat (imap (λ i x, [g i x]) l) = imap g l.
Proof.
  revert g. induction l as [|x l IH]; intros g; [done|].
  cbn [imap concat app]. f_equal. apply (IH (g ∘ S)).
Qed.

Lemma nodes_of_draw_heap_tree heap hl :
  nodes_of (draw_heap_tree heap hl)
  = imap (λ i val,
            (pretty i, pretty val,
             if bool_decide (i ∈ match hl with Some (x :: l) => x :: l | _ => [] end)
             then node_attrs "#FF4B4B" "white"
             else node_attrs "white" "black")) heap.
Proof.
  unfold draw_heap_tree. cbv zeta.
  set (hl' := match hl with Some (x :: l) => x :: l | _ => [] end).
  change (nodes_of (attr_stmt ?a :: ?d)) with (nodes_of d).
  unfold nodes_of at 1. rewrite omap_concat. fold nodes_of.
  rewrite fmap_imap.
  rewrite (imap_ext _ (λ i val, [(pretty i, pretty val,
             if bool_decide (i ∈ hl')
             then node_attrs "#FF4B4B" "white"
             else node_attrs "white" "black")]))
    by (intros i x _; apply nodes_of_draw_item).
  apply concat_imap_singleton.
Qed.

Lemma highlight_or_empty (hl : option (list nat)) :
  match hl with Some (x :: l) => x :: l | _ => [] end = default [] hl.
Proof. by destruct hl as [[|x l]|]. Qed.

Lemma red_nodes_imap (hl : list nat) (l : list Z) :
  (λ nd : string * string * list (string * string), nd.1.1) <$>
    filter (λ nd, ("color", "#FF4B4B")%string ∈ nd.2)
      (imap (λ i val,
               (pretty i, pretty val,
                if bool_decide (i ∈ hl)
                then node_attrs "#FF4B4B" "white"
                else node_attrs "white" "black")) l)
  = pretty <$> filter (λ i, i ∈ hl) (seq 0 (length l)).
Proof.
  induction l as [|x l IH] using rev_ind; [done|].
  rewrite imap_app, list.filter_app, fmap_app, IH.
  rewrite length_app, seq_app, list.filter_app, fmap_app. f_equal.
  cbn [imap length seq Nat.add]. rewrite Nat.add_0_r.
  rewrite !filter_cons, !filter_nil. cbn [snd].
  case_bool_decide as Hin.
  - rewrite decide_True by (unfold node_attrs; do 2 right; left).
    by rewrite decide_True by done.
  - rewrite decide_False.
    + by rewrite decide_False by done.
    + unfold node_attrs. intros H.
      repeat (apply elem_of_cons in H as [H | H]; [discriminate|]).
      by apply elem_of_nil in H.
Qed.

Lemma red_nodes_draw_heap_tree heap hl :
  red_nodes (draw_heap_tree heap hl)
  = pretty <$> filter (λ i, i ∈ default [] hl) (seq 0 (length heap)).
Proof.
  unfold red_nodes. rewrite nodes_of_draw_heap_tree, highlight_or_empty.
  apply red_nodes_imap.
Qed.

Lemma red_nodes_no_highlight heap hl :
  default [] hl = [] → red_nodes (draw_heap_tree heap hl) = [].
Proof.
  intros E. rewrite red_nodes_draw_heap_tree, E.
  induction (seq 0 (length heap)) as [|k l IH]; [done|].
  rewrite filter_cons, decide_False by apply not_elem_of_nil. done.
Qed.

Lemma edge_in_draw_heap_tree heap hl p c :
  (pretty p, pretty c) ∈ edges_of (draw_heap_tree heap hl)
  ↔ child p c ∧ c < length heap.
Proof.
  rewrite edges_of_draw_heap_tree, list_elem_of_fmap. split.
  - intros (c' & [= Hp Hc] & Hin).
    apply (inj pretty) in Hp, Hc. subst.
    apply elem_of_seq in Hin. split; [apply div2_child|]; lia.
  - intros [Hc Hlt]. exists c. apply child_parent in Hc as Hpar.
    destruct Hpar as [-> Hpos]. split; [done|]. apply elem_of_seq. lia.
Qed.

(** X14: the drawing has exactly one node per value of the heap, in index
    order: node i is named str(i) and labelled str(heap[i]), and the names
    are pairwise distinct. *)
Theorem draw_heap_tree_nodes (heap : list Z) (hl : option (list nat)) :
  length (nodes_of (draw_heap_tree heap hl)) = length heap ∧
  NoDup ((λ nd, nd.1.1) <$> nodes_of (draw_heap_tree heap hl)) ∧
  ∀ i, (λ nd, (nd.1.1, nd.1.2)) <$> nodes_of (draw_heap_tree heap hl) !! i
       = (λ val, (pretty i, pretty val)) <$> heap !! i.
Proof.
  rewrite nodes_of_draw_heap_tree. split_and!.
  - apply length_imap.
  - rewrite fmap_imap.
    rewrite (imap_ext _ (λ i _, pretty i)) by done.
    rewrite imap_seq_0. apply (NoDup_fmap_2 _), NoDup_seq.
  - intros i. rewrite list_lookup_imap. by destruct (heap !! i).
Qed.

(** X15: the edges of the drawing are exactly the edges from a parent to a
    child among the indices of the heap, each drawn once, in the order of
    the child index: one edge into every index but the root, len - 1 in
    all (none for an empty heap). *)
Theorem draw_heap_tree_edges (heap : list Z) (hl : option (list nat)) :
  edges_of (draw_heap_tree heap hl)
  = (λ c, (pretty ((c - 1) / 2), pretty c)) <$> seq 1 (length heap - 1) ∧
  length (edges_of (draw_heap_tree heap hl)) = length heap - 1 ∧
  NoDup (edges_of (draw_heap_tree heap hl)) ∧
  ∀ p c, (pretty p, pretty c) ∈ edges_of (draw_heap_tree heap hl)
         ↔ child p c ∧ c < length heap.
Proof.
  split_and!.
  - apply edges_of_draw_heap_tree.
  - by rewrite edges_of_draw_heap_tree, length_fmap, length_seq.
  - rewrite edges_of_draw_heap_tree.
    apply NoDup_fmap_2_strong; [|apply NoDup_seq].
    intros x y _ _ [= _ H]. by apply (inj pretty) in H.
  - apply edge_in_draw_heap_tree.
Qed.

Lemma draw_heap_tree_edges_witness :
  edges_of (draw_heap_tree [7; 3; 9; 1]%Z (Some [1; 3]))
  = [("0", "1"); ("0", "2"); ("1", "3")]%string ∧
  ((pretty 1, pretty 3) ∈ edges_of (draw_heap_tree [7; 3; 9; 1]%Z (Some [1; 3]))
   ↔ child 1 3 ∧ 3 < 4).
Proof.
  destruct (draw_heap_tree_edges [7; 3; 9; 1]%Z (Some [1; 3])) as (He & _ & _ & Hin).
  split; [exact He | apply Hin].
Defined.

(** X16: the red nodes of the drawing are exactly the nodes whose index is
    in highlight_nodes, in index order; with None or an empty list no node is
    red, and highlighted indices that are not indices of the heap are
    ignored. *)
Theorem draw_heap_tree_red_nodes (heap : list Z) (hl : option (list nat)) :
  red_nodes (draw_heap_tree heap hl)
  = pretty <$> filter (λ i, i ∈ default [] hl) (seq 0 (length heap)) ∧
  red_nodes (draw_heap_tree heap None) = [] ∧
  red_nodes (draw_heap_tree heap (Some [])) = [] ∧
  ∀ i, pretty i ∈ red_nodes (draw_heap_tree heap hl)
       ↔ i ∈ default [] hl ∧ i < length heap.
Proof.
  split_and!.
  - apply red_nodes_draw_heap_tree.
  - by apply red_nodes_no_highlight.
  - by apply red_nodes_no_highlight.
  - intros i. rewrite red_nodes_draw_heap_tree.
    rewrite (list_elem_of_fmap_inj pretty), list_elem_of_filter, elem_of_seq.
    split; intros [? ?]; split; [done | lia | done | lia].
Qed.

Lemma draw_heap_tree_red_nodes_witness :
  red_nodes (draw_heap_tree [7; 3; 9; 1]%Z (Some [1; 3; 8])) = ["1"; "3"]%string ∧
  (pretty 8 ∈ red_nodes (draw_heap_tree [7; 3; 9; 1]%Z (Some [1; 3; 8]))
   ↔ 8 ∈ [1; 3; 8] ∧ 8 < 4).
Proof.
  destruct (draw_heap_tree_red_nodes [7; 3; 9; 1]%Z (Some [1; 3; 8]))
    as (He & _ & _ & Hin).
  split; [exact He | apply Hin].
Defined.

(** X17: the drawing determines the heap: two arrays with the same drawing
    (whatever the highlights) are equal. *)
Theorem draw_heap_tree_inj (heap1 heap2 : list Z) (hl1 hl2 : option (list nat)) :
  draw_heap_tree heap1 hl1 = draw_heap_tree heap2 hl2 → heap1 = heap2.
Proof.
  intros Hd.
  assert (∀ heap hl, (λ nd : string * string * list (string * string), nd.1.2)
                       <$> nodes_of (draw_heap_tree heap hl)
                     = pretty <$> heap) as Hlabels.
  { intros heap hl. rewrite nodes_of_draw_heap_tree, fmap_imap.
    rewrite (imap_ext _ (const pretty)) by done. apply imap_const. }
  apply (inj (fmap pretty)).
  by rewrite <- (Hlabels heap1 hl1), <- (Hlabels heap2 hl2), Hd.
Qed.

Lemma draw_heap_tree_inj_witness : [3; -1; 12]%Z = [3; -1; 12]%Z.
Proof.
  apply (draw_heap_tree_inj [3; -1; 12]%Z [3; -1; 12]%Z (Some [0; 2]) (Some [0; 2])).
  reflexivity.
Defined.








Lemma run_ops_length is_min fuel ops :
  ∀ s obs s',
    length (heap s) + ops_size ops < fuel →
    run_ops is_min fuel ops s = Ok (obs, s') →
    length (heap s') ≤ length (heap s) + ops_size ops.
Proof.
  induction ops as [|o ops IH]; intros s obs s' Hfuel Hrun.
  - cbn in Hrun. unfold ret in Hrun. simplify_eq. cbn. lia.
  - change (ops_size (o :: ops)) with (op_size o + ops_size ops) in *.
    destruct (run_op_spec is_min fuel o s) as (r & s1 & Hop & Hlen & _); [lia|].
    cbn [run_ops] in Hrun. unfold bind at 1 in Hrun. rewrite Hop in Hrun.
    unfold bind at 1, get_heap in Hrun. unfold bind at 1 in Hrun.
    destruct (run_ops is_min fuel ops s1) as [[obs1 s2]| |] eqn:Hrest; [|done..].
    unfold ret in Hrun. simplify_eq.
    specialize (IH s1 obs1 s' ltac:(lia) Hrest). lia.
Qed.

(** X19: a heap that was in heap order, after any sequence of build, insert
    and delete-root actions, is emptied by successive delete-root calls in
    sorted order (ascending for MIN, descending for MAX): the calls return
    exactly the values then in the heap, and the call after them finds the
    heap empty. *)
Theorem drain_after_ops_sorted (is_min : bool) (ops : list op) (fuel : nat) (s : state) :
  heap_ordered is_min (heap s) →
  length (heap s) + ops_size ops < fuel →
  ∃ obs s1 vals s2,
    run_ops is_min fuel ops s = Ok (obs, s1) ∧
    delete_roots is_min fuel (length (heap s1) + 1) s1
    = Ok ((Some <$> vals) ++ [None], s2) ∧
    vals ≡ₚ heap s1 ∧
    Sorted (if is_min then Z.le else Z.ge) vals ∧
    heap s2 = [].
Proof.
  intros Hord Hfuel.
  destruct (run_ops_spec is_min fuel ops s Hfuel)
    as (obs & s1 & Hrun & _ & Hords & _).
  destruct (Hords Hord) as [_ Hord1].
  pose proof (run_ops_length is_min fuel ops s obs s1 Hfuel Hrun) as Hlen.
  destruct (delete_roots_drain is_min fuel (length (heap s1)) s1)
    as (vals & s2 & Hdrain & Hp & Hsorted & Hempty & _); [done | lia | done |].
  exists obs, s1, vals, s2. rewrite Nat.add_1_r.
  split_and!; [done | done | done | | done].
  by destruct is_min.
Qed.

Lemma drain_after_ops_sorted_witness :
  ∃ obs s1 vals s2,
    run_ops true 6 [Insert 5%Z; Insert 2%Z; Insert 8%Z; DeleteRoot; Insert 1%Z] init
    = Ok (obs, s1) ∧
    delete_roots true 6 (length (heap s1) + 1) s1
    = Ok ((Some <$> vals) ++ [None], s2) ∧
    vals ≡ₚ heap s1 ∧
    Sorted Z.le vals ∧
    heap s2 = [].
Proof.
  apply (drain_after_ops_sorted true
           [Insert 5%Z; Insert 2%Z; Insert 8%Z; DeleteRoot; Insert 1%Z] 6 init).
  - apply heap_orderedb_sound. reflexivity.
  - vm_compute. lia.
Defined.
